(** * binance-cli: the multi-account fan-out of [main.go]

    A shallow embedding of [src/main.go]: the credential store
    ([loadKeys]), the account registry ([initAccounts]), the two account
    selectors ([findAccountsImpl] and the closure installed by [runOnce]),
    the fan-out executor ([accountsDo]) and the renderer ([print]).

    The package-level variables of [main.go] are the fields of one record,
    [Process]; every function is a computation in a state-and-abort monad
    over it.  What the program does to the outside (files read, operations
    invoked, lines written to the standard streams) is recorded in that
    record too, so that the statements below can speak about it. *)

From stdpp Require Import base gmap strings list fin_maps pretty.

Set Warnings "-register-all,-clear-no-such-hyp".

(** ** Data *)

(** [error] values.  [errors.Trace] of juju/errors wraps an error and keeps
    its message. *)
Module errors.
Inductive error : Type :=
| New (msg : string)
| Traced (cause : error).

Definition Trace (e : error) : error := Traced e.

Fixpoint Error (e : error) : string :=
  match e with
  | New msg => msg
  | Traced cause => Error cause
  end.
End errors.
Export errors.

(** [type AccountKey struct], lines 24-28. *)
Module AccountKey.
Record t : Type := mk { Name : string; APIKey : string; SecretKey : string }.
End AccountKey.

(** The fields of [binance.Client] that [main.go] touches. [NewClient]
    leaves [Debug] off. *)
Module binance.
Record Client : Type := mkClient { APIKey : string; SecretKey : string; Debug : bool }.

Definition NewClient (apiKey secretKey : string) : Client :=
  mkClient apiKey secretKey false.

Definition setDebug (c : Client) (d : bool) : Client :=
  mkClient (APIKey c) (SecretKey c) d.
End binance.

(** Modelled from the spec: the struct [Account] is declared in another file
    of the package; the spec gives it a name and a session handle, and
    [initAccounts] assigns exactly the fields [Client] and [Name]. *)
Module Account.
Record t : Type := mk { Client : binance.Client; Name : string }.
End Account.

(** A pointer to an [Account]: [None] is the nil pointer. *)
Abbreviation AccountPtr := (option Account.t).

(** A Go map from names to account pointers. The nil map reads as the
    empty one. *)
Inductive AccountMap : Type :=
| NilMap
| Map (m : gmap string AccountPtr).

Definition entries (a : AccountMap) : gmap string AccountPtr :=
  match a with
  | NilMap => ∅
  | Map m => m
  end.

(** [accounts[name]] as an expression: the zero value, nil, when absent. *)
Definition index (a : AccountMap) (k : string) : AccountPtr :=
  default None (entries a !! k).

(** An [interface{}] value: nil, a string, a [map[string]interface{}], or
    anything else an operation hands back. *)
Inductive iface (Payload : Type) : Type :=
| INil
| IString (s : string)
| IPayload (p : Payload)
| IMap (m : gmap string (iface Payload)).
Arguments INil {Payload}.
Arguments IString {Payload} s.
Arguments IPayload {Payload} p.
Arguments IMap {Payload} m.

(** The value of the variable [findAccounts]: only two functions are ever
    stored in it, [findAccountsImpl] (by [init]) and the closure of
    [runOnce]. *)
Inductive Finder : Type :=
| FindImpl
| FindOnce.

(** A computation returns, leaves the process through [os.Exit], or
    panics. *)
Inductive Outcome (A : Type) : Type :=
| Ret (a : A)
| Exit (code : Z)
| Panic (msg : string).
Arguments Ret {A} a.
Arguments Exit {A} code.
Arguments Panic {A} msg.

(** ** What the program depends on *)

(** The libraries and the runtime: file reading, JSON decoding and
    encoding, and the order in which [range] walks a map.  [World] is
    whatever the exchange operations act on. *)
Class Externals : Type := {
  World : Type;
  Payload : Type;
  (** [ioutil.ReadFile] *)
  ReadFile : string → string + error;
  (** [json.Unmarshal] into a [[]AccountKey] *)
  Unmarshal : string → list AccountKey.t + error;
  (** [json.MarshalIndent] with four spaces of indentation *)
  MarshalIndent : iface Payload → string + error;
  (** [for k, v := range m]: some order of the entries of [m] *)
  rangeOrder : gmap string AccountPtr → list (string * AccountPtr);
  rangeOrder_perm : ∀ m, rangeOrder m ≡ₚ map_to_list m;
  (** a map whose values are all strings always encodes *)
  MarshalIndent_strings : ∀ m : gmap string (iface Payload),
    (∀ k v, m !! k = Some v → ∃ s, v = IString s) →
    ∃ out, MarshalIndent (IMap m) = inl out;
}.

Section Main.
Context `{Ext : Externals}.

Abbreviation value := (iface Payload).
Abbreviation Results := (gmap string (iface Payload)).

(** How a call of an operation ends: it returns [(res, err)] or panics. *)
Inductive Returned : Type :=
| Returns (res : value) (err : option error)
| Crashes (msg : string).

(** The type of an operation: from an account pointer to a value and an
    error. *)
Definition Action : Type := AccountPtr → World → Returned * World.

(** The type of a finalizer: from the results to a value and an error. *)
Definition PostAction : Type := Results → value * option error.

(** One invocation of the operation, as recorded in [calls]. *)
Record Call : Type := mkCall {
  call_account : AccountPtr;
  call_res : value;
  call_err : option error;
}.

(** The package variables (lines 15-21 and 67), followed by the record of
    what the process has done so far. *)
Record Process : Type := mkProcess {
  name : string;
  keyfile : string;
  debug : bool;
  accounts : AccountMap;
  findAccounts : Finder;
  world : World;
  reads : list string;
  calls : list Call;
  stdout : list string;
  stderr : list string;
}.

Definition set_name (v : string) (s : Process) : Process :=
  mkProcess v (keyfile s) (debug s) (accounts s) (findAccounts s)
            (world s) (reads s) (calls s) (stdout s) (stderr s).
Definition set_keyfile (v : string) (s : Process) : Process :=
  mkProcess (name s) v (debug s) (accounts s) (findAccounts s)
            (world s) (reads s) (calls s) (stdout s) (stderr s).
Definition set_accounts (v : AccountMap) (s : Process) : Process :=
  mkProcess (name s) (keyfile s) (debug s) v (findAccounts s)
            (world s) (reads s) (calls s) (stdout s) (stderr s).
Definition set_findAccounts (v : Finder) (s : Process) : Process :=
  mkProcess (name s) (keyfile s) (debug s) (accounts s) v
            (world s) (reads s) (calls s) (stdout s) (stderr s).
Definition set_world (v : World) (s : Process) : Process :=
  mkProcess (name s) (keyfile s) (debug s) (accounts s) (findAccounts s)
            v (reads s) (calls s) (stdout s) (stderr s).
Definition set_reads (v : list string) (s : Process) : Process :=
  mkProcess (name s) (keyfile s) (debug s) (accounts s) (findAccounts s)
            (world s) v (calls s) (stdout s) (stderr s).
Definition set_calls (v : list Call) (s : Process) : Process :=
  mkProcess (name s) (keyfile s) (debug s) (accounts s) (findAccounts s)
            (world s) (reads s) v (stdout s) (stderr s).
Definition set_stdout (v : list string) (s : Process) : Process :=
  mkProcess (name s) (keyfile s) (debug s) (accounts s) (findAccounts s)
            (world s) (reads s) (calls s) v (stderr s).
Definition set_stderr (v : list string) (s : Process) : Process :=
  mkProcess (name s) (keyfile s) (debug s) (accounts s) (findAccounts s)
            (world s) (reads s) (calls s) (stdout s) v.

(** ** The monad *)

(** A computation over the process state. *)
Definition M (A : Type) : Type := Process → Outcome A * Process.

Definition ret {A} (a : A) : M A := λ s, (Ret a, s).

Definition bind {A B} (m : M A) (k : A → M B) : M B := λ s,
  match m s with
  | (Ret a, s') => k a s'
  | (Exit code, s') => (Exit code, s')
  | (Panic msg, s') => (Panic msg, s')
  end.

Notation "'let*' x ':=' m 'in' k" := (bind m (λ x, k))
  (at level 10, x pattern, m at level 100, k at level 200).

Definition gets {A} (f : Process → A) : M A := λ s, (Ret (f s), s).
Definition modify (f : Process → Process) : M unit := λ s, (Ret tt, f s).
Definition panic {A} (msg : string) : M A := λ s, (Panic msg, s).

(** [for _, x := range l { body x }] over a slice. *)
Fixpoint for_each {A} (l : list A) (body : A → M unit) : M unit :=
  match l with
  | [] => ret tt
  | x :: l' => let* _ := body x in for_each l' body
  end.

(** ** Library calls with an effect *)

(** [log.Fatal(prefix, err)]: the line goes to standard error (the time
    stamp the logger puts in front is left out) and the process exits with
    status 1. *)
Definition log_Fatal {A} (line : string) : M A := λ s,
  (Exit 1, set_stderr (stderr s ++ [line]) s).

(** [fmt.Println] *)
Definition fmt_Println (line : string) : M unit :=
  modify (λ s, set_stdout (stdout s ++ [line]) s).

(** [ioutil.ReadFile], leaving a trace of the path. *)
Definition ioutil_ReadFile (filePath : string) : M (string + error) := λ s,
  (Ret (ReadFile filePath), set_reads (reads s ++ [filePath]) s).

Definition nil_deref : string :=
  "runtime error: invalid memory address or nil pointer dereference".
Definition nil_map_write : string :=
  "assignment to entry in nil map".

(** [action(account)] *)
Definition invoke (action : Action) (account : AccountPtr) : M (value * option error) := λ s,
  match action account (world s) with
  | (Returns res err, w) =>
      (Ret (res, err),
       set_calls (calls s ++ [mkCall account res err]) (set_world w s))
  | (Crashes msg, w) => (Panic msg, set_world w s)
  end.

(** ** The program *)

(** Lines 30-41. *)
Definition loadKeys (filePath : string) : M (list AccountKey.t * option error) :=
  let* r := ioutil_ReadFile filePath in
  match r with
  | inr err => ret ([], Some (Trace err))
  | inl keyBytes =>
      match Unmarshal keyBytes with
      | inr err => ret ([], Some (Trace err))
      | inl keys => ret (keys, None)
      end
  end.

(** Lines 53-62: the account made from one record. *)
Definition newAccount (dbg : bool) (key : AccountKey.t) : Account.t :=
  let client := binance.NewClient (AccountKey.APIKey key) (AccountKey.SecretKey key) in
  let client := if dbg then binance.setDebug client true else client in
  Account.mk client (AccountKey.Name key).

(** Line 63, [accounts[account.Name] = account] on the package variable. *)
Definition store_account (account : Account.t) : M unit :=
  let* accs := gets accounts in
  match accs with
  | NilMap => panic nil_map_write
  | Map m => modify (set_accounts (Map (<[Account.Name account := Some account]> m)))
  end.

(** Lines 43-65. *)
Definition initAccounts : M unit :=
  let* kf := gets keyfile in
  let* _ := (if decide (kf = "") then modify (set_keyfile "keys.json") else ret tt) in
  let* kf := gets keyfile in
  let* (keys, err) := loadKeys kf in
  match err with
  | Some e => log_Fatal ("failed to load keys: " +:+ Error e)
  | None =>
      let* _ := modify (set_accounts (Map ∅)) in
      for_each keys (λ key,
        let* dbg := gets debug in
        store_account (newAccount dbg key))
  end.

(** Lines 69-75. *)
Definition findAccountsImpl (n : string) : M AccountMap :=
  let* _ := initAccounts in
  let* accs := gets accounts in
  if decide (n = "") then ret accs
  else ret (Map {[ n := index accs n ]}).

(** Lines 79-85, the function [runOnce] stores in [findAccounts]. *)
Definition findAccountsOnce (n : string) : M AccountMap :=
  let* _ := initAccounts in
  let* accs := gets accounts in
  match rangeOrder (entries accs) with
  | (k, v) :: _ => ret (Map {[ k := v ]})
  | [] => ret NilMap
  end.

(** A call through the variable [findAccounts]. *)
Definition call_findAccounts (n : string) : M AccountMap :=
  let* f := gets findAccounts in
  match f with
  | FindImpl => findAccountsImpl n
  | FindOnce => findAccountsOnce n
  end.

(** Lines 96-102, one turn of the loop; [account.Name] dereferences. *)
Definition fanOut_step (action : Action) (results : Results) (account : AccountPtr)
  : M Results :=
  let* (res, err) := invoke action account in
  match account with
  | None => panic nil_deref
  | Some a =>
      match err with
      | Some e => ret (<[Account.Name a := IString ("error: " +:+ Error e)]> results)
      | None => ret (<[Account.Name a := res]> results)
      end
  end.

(** Lines 95-103. *)
Fixpoint fanOut_loop (action : Action) (l : list (string * AccountPtr)) (results : Results)
  : M Results :=
  match l with
  | [] => ret results
  | (_, account) :: l' =>
      let* results' := fanOut_step action results account in
      fanOut_loop action l' results'
  end.

(** Lines 91-103: select, then fan out into a fresh [results]. *)
Definition fanOut (action : Action) : M Results :=
  let* n := gets name in
  let* accs := call_findAccounts n in
  fanOut_loop action (rangeOrder (entries accs)) ∅.

(** Lines 115-122. *)
Definition print (v : value) : M (option error) :=
  match MarshalIndent v with
  | inr err => ret (Some (Trace err))
  | inl out => let* _ := fmt_Println out in ret None
  end.

(** Lines 104-112. *)
Definition finish (postAction : list PostAction) (results : Results) : M (option error) :=
  match postAction with
  | post :: _ =>
      let '(v, err) := post results in
      match err with
      | Some e => ret (Some (Trace e))
      | None => print v
      end
  | [] => print (IMap results)
  end.

(** Lines 89-113. *)
Definition accountsDo (action : Action) (postAction : list PostAction) : M (option error) :=
  let* results := fanOut action in
  finish postAction results.

(** Lines 77-87. *)
Definition runOnce (action : Action) (postAction : list PostAction) : M (option error) :=
  let* _ := modify (set_findAccounts FindOnce) in
  accountsDo action postAction.


(** Lines 232-235 of [main]: the status the process leaves with once the
    command chosen on the command line has run.  [app.Run] hands back the
    command's error; a non-nil one goes to [log.Fatal].  A panic that
    nothing recovers ends a Go program with status 2. *)
Definition exit_status (o : Outcome (option error)) : Z :=
  match o with
  | Ret None => 0
  | Ret (Some _) => 1
  | Exit code => code
  | Panic _ => 2
  end.

(** ** Vocabulary

    Definitions used to state the properties: the path a run loads from,
    what that file holds, and the registry a sequence of records builds. *)

(** The path [initAccounts] hands to [loadKeys] in state [s]. *)
Definition keyfile_path (s : Process) : string :=
  if decide (keyfile s = "") then "keys.json" else keyfile s.

(** The file at [path] can be read and decodes to the records [ks]. *)
Definition holds_keys (path : string) (ks : list AccountKey.t) : Prop :=
  ∃ keyBytes, ReadFile path = inl keyBytes ∧ Unmarshal keyBytes = inl ks.

(** The file at [path] cannot be read, or its content does not decode;
    [e] is the error of the failing call. *)
Definition unloadable (path : string) (e : error) : Prop :=
  ReadFile path = inr e ∨
  ∃ keyBytes, ReadFile path = inl keyBytes ∧ Unmarshal keyBytes = inr e.

(** The entries the loop of [initAccounts] leaves in a map that held [m]. *)
Definition registry_from (dbg : bool) (m : gmap string AccountPtr) (ks : list AccountKey.t)
  : gmap string AccountPtr :=
  foldl (λ m key, <[AccountKey.Name key := Some (newAccount dbg key)]> m) m ks.

Definition registry (dbg : bool) (ks : list AccountKey.t) : gmap string AccountPtr :=
  registry_from dbg ∅ ks.

(** The state [initAccounts] leaves behind once the file has been read. *)
Definition after_read (s : Process) : Process :=
  set_reads (reads s ++ [keyfile_path s]) (set_keyfile (keyfile_path s) s).

Definition after_init (ks : list AccountKey.t) (s : Process) : Process :=
  set_accounts (Map (registry (debug s) ks)) (after_read s).

(** The entry of [results] that a call leaves for its account. *)
Definition entry_of (c : Call) : value :=
  match call_err c with
  | Some e => IString ("error: " +:+ Error e)
  | None => call_res c
  end.

(** The operation returns, whatever the world, when it is handed an
    account that exists. *)
Definition returns_on_accounts (action : Action) : Prop :=
  ∀ (a : Account.t) (w : World), ∃ res err w',
    action (Some a) w = (Returns res err, w').

(** What [findAccountsImpl] answers on a registry [reg]. *)
Definition select_by_name (n : string) (reg : gmap string AccountPtr) : AccountMap :=
  if decide (n = "") then Map reg else Map {[ n := index (Map reg) n ]}.

(** What the closure of [runOnce] answers on a registry [reg]. *)
Definition select_once (reg : gmap string AccountPtr) : AccountMap :=
  match rangeOrder reg with
  | (k, v) :: _ => Map {[ k := v ]}
  | [] => NilMap
  end.

Definition select (f : Finder) (n : string) (reg : gmap string AccountPtr) : AccountMap :=
  match f with
  | FindImpl => select_by_name n reg
  | FindOnce => select_once reg
  end.

(** The name a call was made for. *)
Definition call_key (c : Call) : string :=
  from_option Account.Name "" (call_account c).

(** The assignment to [results] that follows a call. *)
Definition record_call (results : Results) (c : Call) : Results :=
  <[call_key c := entry_of c]> results.

(** The world and the calls move on; nothing else of the state does. *)
Definition advance (new : list Call) (w : World) (s : Process) : Process :=
  set_calls (calls s ++ new) (set_world w s).

(** A computation that neither reads nor writes the variable [name]. *)
Definition name_blind {A} (m : M A) : Prop :=
  ∀ n s, m (set_name n s) = ((m s).1, set_name n (m s).2).


End Main.

(** ** A concrete run

    One instance of the libraries, small enough to run the program on:
    three files, a table in place of the JSON decoder, an encoder for the
    values that occur, and [range] in the order of [map_to_list]. *)
Module Demo.

Definition newline : string := String (Ascii.ascii_of_nat 10) EmptyString.
Definition quote : string := String (Ascii.ascii_of_nat 34) EmptyString.
Definition quoted (s : string) : string := quote +:+ s +:+ quote.

Definition member (indent k : string) (enc : option string)
    (acc : option (list string)) : option (list string) :=
  r ← acc; e ← enc; Some (r ++ [indent +:+ quoted k +:+ ": " +:+ e]).

(** A negative payload stands for a value the encoder rejects. *)
Fixpoint encode (indent : string) (v : iface Z) : option string :=
  match v with
  | INil => Some "null"
  | IString s => Some (quoted s)
  | IPayload p => if decide (p < 0)%Z then None else Some (pretty p)
  | IMap m =>
      ms ← map_fold (λ k v, member (indent +:+ "    ") k (encode (indent +:+ "    ") v))
                     (Some []) m;
      Some (match ms with
            | [] => "{}"
            | _ => "{" +:+ newline +:+ String.concat ("," +:+ newline) ms
                       +:+ newline +:+ indent +:+ "}"
            end)
  end.

Definition MarshalIndent (v : iface Z) : string + error :=
  match encode "" v with
  | Some out => inl out
  | None => inr (New "json: unsupported value")
  end.

Lemma encode_strings (indent : string) (m : gmap string (iface Z)) :
  (∀ k v, m !! k = Some v → ∃ s, v = IString s) →
  is_Some (encode indent (IMap m)).
Proof.
  intros Hm. cbn.
  assert (is_Some (map_fold (λ k v, member (indent +:+ "    ") k
                                      (encode (indent +:+ "    ") v))
                            (Some []) m)) as [ms ->]; [|by eexists].
  revert Hm.
  apply (map_fold_weak_ind
    (λ r m, (∀ k v, m !! k = Some v → ∃ s, v = IString s) → is_Some r)).
  - by eexists.
  - intros k v m' r Hk IH Hm'. destruct IH as [ms ->].
    { intros k' v' Hv'. apply (Hm' k'). rewrite lookup_insert_ne; [done|].
      intros ->. congruence. }
    destruct (Hm' k v) as [s ->]; [by rewrite lookup_insert_eq|]. by eexists.
Qed.

Lemma MarshalIndent_strings (m : gmap string (iface Z)) :
  (∀ k v, m !! k = Some v → ∃ s, v = IString s) →
  ∃ out, MarshalIndent (IMap m) = inl out.
Proof.
  intros Hm. unfold MarshalIndent.
  destruct (encode_strings "" m Hm) as [out ->]. by exists out.
Qed.

Definition keyA : AccountKey.t := AccountKey.mk "A" "key-1" "secret-1".
Definition keyB : AccountKey.t := AccountKey.mk "B" "key-2" "secret-2".
Definition keyA' : AccountKey.t := AccountKey.mk "A" "key-3" "secret-3".

Definition ReadFile (path : string) : string + error :=
  if decide (path = "keys.json") then inl "[A, B, A]"
  else if decide (path = "none.json") then inl "[]"
  else if decide (path = "broken.json") then inl "[A, "
  else inr (New ("open " +:+ path +:+ ": no such file or directory")).

Definition Unmarshal (keyBytes : string) : list AccountKey.t + error :=
  if decide (keyBytes = "[A, B, A]") then inl [keyA; keyB; keyA']
  else if decide (keyBytes = "[]") then inl []
  else inr (New "unexpected end of JSON input").

#[export] Instance ext : Externals :=
  Build_Externals nat Z ReadFile Unmarshal MarshalIndent map_to_list
    (λ m, reflexivity (map_to_list m)) MarshalIndent_strings.

(** The world counts the requests made. Account B is refused; on a nil
    pointer the operation dereferences and panics. *)
Definition list_prices : Action := λ account w,
  match account with
  | None => (Crashes nil_deref, w)
  | Some a =>
      if decide (Account.Name a = "B")
      then (Returns INil (Some (New "invalid API key")), S w)
      else (Returns (IPayload 75%Z) None, S w)
  end.

(** An operation that fails on every account and does not look at it. *)
Definition offline : Action := λ account w,
  (Returns INil (Some (New "connection refused")), S w).

(** A fresh process: [init] has run, the flags are parsed. *)
Definition start (n kf : string) (f : Finder) : Process :=
  mkProcess n kf false NilMap f 0 [] [] [] [].

Definition accountA : Account.t := newAccount false keyA'.
Definition accountB : Account.t := newAccount false keyB.

(** The selection of all accounts, and the state once the keyfile has been
    loaded. *)
Definition everyone : AccountMap :=
  Map (<["A" := Some accountA]> (<["B" := Some accountB]> ∅)).

Definition loaded : Process :=
  mkProcess "" "keys.json" false everyone FindImpl 0 ["keys.json"] [] [] [].

(** The two calls of [list_prices], and the state after them. *)
Definition callA : Call := mkCall (Some accountA) (IPayload 75%Z) None.
Definition callB : Call := mkCall (Some accountB) INil (Some (New "invalid API key")).

Definition priced : Process :=
  mkProcess "" "keys.json" false everyone FindImpl 2 ["keys.json"]
    [callA; callB] [] [].

Definition prices : gmap string (iface Z) :=
  <["A" := IPayload 75%Z]> (<["B" := IString "error: invalid API key"]> ∅).

(** Two finalizers: one counts the entries, one gives up. *)
Definition count_entries : PostAction := λ results,
  (IPayload (Z.of_nat (size results)), None).
Definition no_totals : PostAction := λ results,
  (INil, Some (New "no totals")).

End Demo.

(** A second instance: two keyfiles that hold the same two records in
    opposite orders, and an operation that panics on one account. *)
Module Demo2.

Definition ReadFile (path : string) : string + error :=
  if decide (path = "ab.json") then inl "[A, B]"
  else if decide (path = "ba.json") then inl "[B, A]"
  else inr (New ("open " +:+ path +:+ ": no such file or directory")).

Definition Unmarshal (keyBytes : string) : list AccountKey.t + error :=
  if decide (keyBytes = "[A, B]") then inl [Demo.keyA; Demo.keyB]
  else if decide (keyBytes = "[B, A]") then inl [Demo.keyB; Demo.keyA]
  else inr (New "unexpected end of JSON input").

Definition ext : Externals :=
  Build_Externals nat Z ReadFile Unmarshal Demo.MarshalIndent map_to_list
    (λ m, reflexivity (map_to_list m)) Demo.MarshalIndent_strings.

Definition start (kf : string) : @Process ext :=
  @mkProcess ext "" kf false NilMap FindImpl 0 [] [] [] [].

(** The connection to account A breaks in a way the client does not
    catch; account B answers. *)
Definition flaky : @Action Demo.ext := λ account w,
  match account with
  | None => (@Crashes Demo.ext nil_deref, w)
  | Some a =>
      if decide (Account.Name a = "A")
      then (@Crashes Demo.ext "connection reset", w)
      else (@Returns Demo.ext (IPayload 75%Z) None, S w)
  end.

End Demo2.

(** * Properties *)

Section Properties.
Context `{Ext : Externals}.

Abbreviation value := (iface Payload).
Abbreviation Results := (gmap string (iface Payload)).

Notation "'let*' x ':=' m 'in' k" := (bind m (λ x, k))
  (at level 10, x pattern, m at level 100, k at level 200).

(** ** The registry *)

Lemma newAccount_Name dbg key :
  Account.Name (newAccount dbg key) = AccountKey.Name key.
Proof. reflexivity. Qed.

Lemma registry_from_snoc dbg m ks key :
  registry_from dbg m (ks ++ [key]) =
  <[AccountKey.Name key := Some (newAccount dbg key)]> (registry_from dbg m ks).
Proof. unfold registry_from. by rewrite foldl_app. Qed.

(** A name is in the registry exactly when some record carries it. *)
Lemma registry_from_is_Some dbg m ks n :
  is_Some (registry_from dbg m ks !! n) ↔
  is_Some (m !! n) ∨ n ∈ AccountKey.Name <$> ks.
Proof.
  induction ks as [|key ks IH] using rev_ind.
  - cbn. rewrite elem_of_nil. tauto.
  - rewrite registry_from_snoc, fmap_app, elem_of_app. cbn.
    rewrite list_elem_of_singleton.
    destruct (decide (AccountKey.Name key = n)) as [->|Hne].
    + rewrite lookup_insert_eq. split; [intros _|eauto]. by right; right.
    + rewrite lookup_insert_ne by done. rewrite IH.
      split; [intros [?|?]; auto | intros [?|[?|?]]; auto; congruence].
Qed.

(** Every account sits under its own name. *)
Lemma registry_from_named dbg m ks :
  (∀ k a, m !! k = Some (Some a) → Account.Name a = k) →
  ∀ k a, registry_from dbg m ks !! k = Some (Some a) → Account.Name a = k.
Proof.
  intros Hm. induction ks as [|key ks IH] using rev_ind; [exact Hm|].
  intros k a. rewrite registry_from_snoc.
  destruct (decide (AccountKey.Name key = k)) as [<-|Hne].
  - rewrite lookup_insert_eq. by intros [= <-].
  - rewrite lookup_insert_ne by done. apply IH.
Qed.

(** No nil pointer is ever stored. *)
Lemma registry_from_no_nil dbg m ks :
  (∀ k, m !! k ≠ Some None) →
  ∀ k, registry_from dbg m ks !! k ≠ Some None.
Proof.
  intros Hm. induction ks as [|key ks IH] using rev_ind; [exact Hm|].
  intros k. rewrite registry_from_snoc.
  destruct (decide (AccountKey.Name key = k)) as [<-|Hne].
  - by rewrite lookup_insert_eq.
  - rewrite lookup_insert_ne by done. apply IH.
Qed.

(** The last record of a name decides the account stored under it. *)
Lemma registry_from_last dbg m ks i key :
  ks !! i = Some key →
  (∀ j key', i < j → ks !! j = Some key' → AccountKey.Name key' ≠ AccountKey.Name key) →
  registry_from dbg m ks !! AccountKey.Name key = Some (Some (newAccount dbg key)).
Proof.
  revert i key. induction ks as [|key0 ks IH] using rev_ind; intros i key Hi Hlast.
  - by rewrite lookup_nil in Hi.
  - rewrite registry_from_snoc.
    destruct (decide (i = length ks)) as [->|Hne].
    + rewrite lookup_app_r, Nat.sub_diag in Hi by lia. injection Hi as ->.
      by rewrite lookup_insert_eq.
    + assert (i < length ks) as Hlt.
      { apply lookup_lt_Some in Hi. rewrite length_app in Hi. cbn in Hi. lia. }
      rewrite lookup_app_l in Hi by done.
      rewrite lookup_insert_ne.
      * apply (IH i); [done|]. intros j key' Hj Hj'.
        apply (Hlast j); [done|]. rewrite lookup_app_l; [done|].
        by apply lookup_lt_Some in Hj'.
      * apply (Hlast (length ks)); [done|].
        by rewrite lookup_app_r, Nat.sub_diag by lia.
Qed.

Lemma registry_dom dbg ks :
  dom (registry dbg ks) = list_to_set (AccountKey.Name <$> ks).
Proof.
  apply set_eq. intros n. rewrite elem_of_dom, elem_of_list_to_set.
  unfold registry. rewrite registry_from_is_Some, lookup_empty.
  split; [intros [[? [=]]|?]; done | by right].
Qed.

Lemma registry_size dbg ks :
  size (registry dbg ks) = length (remove_dups (AccountKey.Name <$> ks)).
Proof.
  rewrite <- size_dom, registry_dom.
  rewrite <- (size_list_to_set (C:=gset string) (remove_dups _))
    by apply NoDup_remove_dups.
  f_equal. apply set_eq. intros n.
  by rewrite !elem_of_list_to_set, elem_of_remove_dups.
Qed.

Lemma registry_named dbg ks k a :
  registry dbg ks !! k = Some (Some a) → Account.Name a = k.
Proof. apply registry_from_named. intros ? ?. by rewrite lookup_empty. Qed.

Lemma registry_no_nil dbg ks k : registry dbg ks !! k ≠ Some None.
Proof. apply registry_from_no_nil. intros ?. by rewrite lookup_empty. Qed.

(** ** [initAccounts] *)

Lemma for_each_store ks : ∀ m s,
  accounts s = Map m →
  for_each ks (λ key, let* dbg := gets debug in store_account (newAccount dbg key)) s =
  (Ret tt, set_accounts (Map (registry_from (debug s) m ks)) s).
Proof.
  induction ks as [|key ks IH]; intros m s Hm.
  - cbn. unfold ret. f_equal. destruct s; cbn in *; by subst.
  - cbn [for_each]. unfold bind at 1. unfold bind at 1.
    unfold gets at 1, store_account, bind, gets. rewrite Hm.
    unfold modify. erewrite IH by reflexivity. reflexivity.
Qed.

Lemma loadKeys_ok path ks s :
  holds_keys path ks →
  loadKeys path s = (Ret (ks, None), set_reads (reads s ++ [path]) s).
Proof.
  intros (keyBytes & Hr & Hu). unfold loadKeys, bind, ioutil_ReadFile.
  by rewrite Hr, Hu.
Qed.

Lemma loadKeys_fail path e s :
  unloadable path e →
  loadKeys path s = (Ret ([], Some (Trace e)), set_reads (reads s ++ [path]) s).
Proof.
  unfold loadKeys, bind, ioutil_ReadFile.
  intros [Hr|(keyBytes & Hr & Hu)]; rewrite Hr; [done|by rewrite Hu].
Qed.

(** A path either holds records or is unloadable. *)
Lemma holds_or_unloadable path :
  (∃ ks, holds_keys path ks) ∨ (∃ e, unloadable path e).
Proof.
  unfold holds_keys, unloadable.
  destruct (ReadFile path) as [keyBytes|e] eqn:Hr; [|by right; exists e; left].
  destruct (Unmarshal keyBytes) as [ks|e] eqn:Hu.
  - left. by exists ks, keyBytes.
  - right. exists e. right. by exists keyBytes.
Qed.

Lemma holds_not_unloadable path ks e :
  holds_keys path ks → unloadable path e → False.
Proof.
  intros (keyBytes & Hr & Hu) [Hr'|(keyBytes' & Hr' & Hu')]; congruence.
Qed.

Lemma holds_keys_inj path ks ks' :
  holds_keys path ks → holds_keys path ks' → ks = ks'.
Proof. intros (b & Hr & Hu) (b' & Hr' & Hu'). congruence. Qed.

Lemma initAccounts_ok s ks :
  holds_keys (keyfile_path s) ks →
  initAccounts s = (Ret tt, after_init ks s).
Proof.
  intros Hk. unfold initAccounts, after_init, after_read, registry.
  unfold keyfile_path in *. unfold bind at 1. unfold gets at 1.
  destruct (decide (keyfile s = "")) as [He|Hne].
  - unfold bind at 1. unfold modify at 1. unfold bind at 1. unfold gets at 1.
    cbn [keyfile set_keyfile]. unfold bind at 1.
    rewrite (loadKeys_ok _ ks) by done.
    unfold bind at 1. unfold modify at 1.
    erewrite for_each_store by reflexivity. reflexivity.
  - unfold bind at 1. unfold ret at 1. unfold bind at 1. unfold gets at 1.
    unfold bind at 1.
    rewrite (loadKeys_ok _ ks) by done.
    unfold bind at 1. unfold modify at 1.
    erewrite for_each_store by reflexivity. by destruct s.
Qed.

Lemma initAccounts_fail s e :
  unloadable (keyfile_path s) e →
  initAccounts s =
  (Exit 1, set_stderr (stderr s ++ ["failed to load keys: " +:+ Error e]) (after_read s)).
Proof.
  intros Hk. unfold initAccounts, after_read.
  unfold keyfile_path in *. unfold bind at 1. unfold gets at 1.
  destruct (decide (keyfile s = "")) as [He|Hne].
  - unfold bind at 1. unfold modify at 1. unfold bind at 1. unfold gets at 1.
    cbn [keyfile set_keyfile]. unfold bind at 1.
    by rewrite (loadKeys_fail _ e) by done.
  - unfold bind at 1. unfold ret at 1. unfold bind at 1. unfold gets at 1.
    unfold bind at 1.
    rewrite (loadKeys_fail _ e) by done. unfold log_Fatal. cbn [Error Trace].
    by destruct s.
Qed.

(** ** The selectors *)

Lemma call_findAccounts_ok n s ks :
  holds_keys (keyfile_path s) ks →
  call_findAccounts n s =
  (Ret (select (findAccounts s) n (registry (debug s) ks)), after_init ks s).
Proof.
  intros Hk. unfold call_findAccounts, bind at 1, gets at 1, select.
  destruct (findAccounts s).
  - unfold findAccountsImpl, bind. rewrite (initAccounts_ok s ks Hk).
    unfold gets, select_by_name. by destruct (decide (n = "")).
  - unfold findAccountsOnce, bind. rewrite (initAccounts_ok s ks Hk).
    unfold gets, select_once. cbn [accounts after_init set_accounts entries].
    by destruct (rangeOrder (registry (debug s) ks)) as [|[k v] l].
Qed.

Lemma call_findAccounts_fail n s e :
  unloadable (keyfile_path s) e →
  call_findAccounts n s =
  (Exit 1, set_stderr (stderr s ++ ["failed to load keys: " +:+ Error e]) (after_read s)).
Proof.
  intros Hk. unfold call_findAccounts, bind at 1, gets at 1.
  destruct (findAccounts s).
  - unfold findAccountsImpl, bind. by rewrite (initAccounts_fail s e Hk).
  - unfold findAccountsOnce, bind. by rewrite (initAccounts_fail s e Hk).
Qed.

(** A selector that returns has loaded the records. *)
Lemma call_findAccounts_inv n s sel s1 :
  call_findAccounts n s = (Ret sel, s1) →
  ∃ ks, holds_keys (keyfile_path s) ks ∧
        sel = select (findAccounts s) n (registry (debug s) ks) ∧
        s1 = after_init ks s.
Proof.
  intros Hc. destruct (holds_or_unloadable (keyfile_path s)) as [[ks Hk]|[e He]].
  - rewrite (call_findAccounts_ok n s ks Hk) in Hc. injection Hc as <- <-. eauto.
  - by rewrite (call_findAccounts_fail n s e He) in Hc.
Qed.

Lemma rangeOrder_elem m k v : (k, v) ∈ rangeOrder m ↔ m !! k = Some v.
Proof. by rewrite (rangeOrder_perm m), elem_of_map_to_list. Qed.

Lemma rangeOrder_NoDup m : NoDup (rangeOrder m).*1.
Proof. rewrite (rangeOrder_perm m). apply NoDup_fst_map_to_list. Qed.

Lemma rangeOrder_length m : length (rangeOrder m) = size m.
Proof. rewrite (rangeOrder_perm m). apply length_map_to_list. Qed.

Lemma rangeOrder_dom (m : gmap string AccountPtr) :
  list_to_set (rangeOrder m).*1 = dom m.
Proof.
  apply set_eq. intros k. rewrite elem_of_list_to_set, elem_of_dom, list_elem_of_fmap.
  split.
  - intros ([k' v] & -> & Hin). apply rangeOrder_elem in Hin. by exists v.
  - intros [v Hv]. exists (k, v). split; [done|]. by apply rangeOrder_elem.
Qed.

(** Every account of a selection is one of the registry, under its name. *)
Lemma select_sub f n reg k a :
  entries (select f n reg) !! k = Some (Some a) → reg !! k = Some (Some a).
Proof.
  destruct f; cbn.
  - unfold select_by_name. destruct (decide (n = "")); [done|]. cbn.
    intros [<- Hi]%lookup_singleton_Some. unfold index in Hi. cbn in Hi.
    by destruct (reg !! n) as [[a'|]|]; cbn in Hi; simplify_eq.
  - unfold select_once. destruct (rangeOrder reg) as [|[k' v] l] eqn:Hl; cbn.
    + by rewrite lookup_empty.
    + intros [<- ->]%lookup_singleton_Some. apply rangeOrder_elem.
      rewrite Hl. by left.
Qed.

Lemma select_named f n dbg ks k a :
  entries (select f n (registry dbg ks)) !! k = Some (Some a) → Account.Name a = k.
Proof. intros H%select_sub. by eapply registry_named. Qed.

(** ** The fan-out loop *)

Lemma fanOut_loop_returns action l :
  returns_on_accounts action →
  (∀ kv, kv ∈ l → is_Some kv.2) →
  ∀ results s, ∃ new w,
    fanOut_loop action l results s =
      (Ret (foldl record_call results new), advance new w s) ∧
    call_account <$> new = l.*2.
Proof.
  intros Hact. induction l as [|[k v] l IH]; intros Hl results s.
  - exists [], (world s). split; [|done]. cbn. unfold ret, advance.
    rewrite app_nil_r. by destruct s.
  - destruct (Hl (k, v)) as [a Ha]; [by left|]. cbn in Ha. subst v.
    destruct (Hact a (world s)) as (res & err & w & Hcall).
    cbn [fanOut_loop]. unfold bind at 1, fanOut_step, bind at 1, invoke.
    rewrite Hcall.
    set (c := mkCall (Some a) res err).
    set (s1 := set_calls (calls s ++ [c]) (set_world w s)).
    assert (∀ kv, kv ∈ l → is_Some kv.2) as Hl' by (intros kv ?; apply Hl; by right).
    destruct (IH Hl' (record_call results c) s1) as (new & w' & Hloop & Hnew).
    exists (c :: new), w'. split; [|by cbn; rewrite Hnew].
    assert (advance new w' s1 = advance (c :: new) w' s) as <-.
    { unfold advance, s1. cbn. by rewrite <- app_assoc. }
    cbn [foldl]. rewrite <- Hloop. clear Hloop.
    unfold record_call, call_key, entry_of, ret. subst s1 c.
    by destruct err.
Qed.

(** A nil account stops the loop with a panic, whatever the operation
    does with it. *)
Lemma fanOut_step_nil action results s :
  ∃ msg s', fanOut_step action results None s = (Panic msg, s').
Proof.
  unfold fanOut_step, bind, invoke.
  destruct (action None (world s)) as [[res err|msg] w]; eauto.
Qed.

Lemma foldl_record_call_lookup_ne (new : list Call) : ∀ (results : Results) k,
  k ∉ call_key <$> new →
  foldl record_call results new !! k = results !! k.
Proof.
  induction new as [|c new IH]; intros results k Hk; [done|].
  cbn in *. rewrite not_elem_of_cons in Hk. destruct Hk as [Hne Hk].
  rewrite IH by done. unfold record_call. by rewrite lookup_insert_ne.
Qed.

(** With one call per name, each call decides the entry of its name. *)
Lemma foldl_record_call_lookup (new : list Call) : ∀ (results : Results) c,
  NoDup (call_key <$> new) →
  c ∈ new →
  foldl record_call results new !! call_key c = Some (entry_of c).
Proof.
  induction new as [|c0 new IH]; intros results c Hnd Hin.
  - by apply elem_of_nil in Hin.
  - cbn in *. apply NoDup_cons in Hnd as [Hfresh Hnd].
    apply elem_of_cons in Hin as [->|Hin]; [|by apply IH].
    rewrite foldl_record_call_lookup_ne by done.
    unfold record_call. by rewrite lookup_insert_eq.
Qed.

Lemma foldl_record_call_dom (new : list Call) : ∀ results : Results,
  dom (foldl record_call results new) = dom results ∪ list_to_set (call_key <$> new).
Proof.
  induction new as [|c new IH]; intros results; cbn.
  - set_solver.
  - rewrite IH. unfold record_call. rewrite dom_insert_L. set_solver.
Qed.

(** In a selection whose accounts all exist and sit under their names, the
    calls of the loop are made for the keys of the selection. *)
Lemma call_keys_of_range (l : list (string * AccountPtr)) (new : list Call) :
  (∀ k v, (k, v) ∈ l → ∃ a, v = Some a ∧ Account.Name a = k) →
  call_account <$> new = l.*2 →
  call_key <$> new = l.*1.
Proof.
  revert new. induction l as [|[k v] l IH]; intros [|c new] Hl Hnew; try done.
  cbn in *. injection Hnew as Hc Hnew. f_equal.
  - destruct (Hl k v) as (a & -> & <-); [by left|].
    unfold call_key. by rewrite Hc.
  - apply IH; [|done]. intros k' v' ?. apply Hl. by right.
Qed.

(** Whatever the loop comes to, it only moves the world and the calls. *)
Lemma fanOut_loop_frame action l : ∀ results s, ∃ new w,
  (fanOut_loop action l results s).2 = advance new w s.
Proof.
  induction l as [|[k v] l IH]; intros results s.
  - exists [], (world s). cbn. unfold advance. rewrite app_nil_r. by destruct s.
  - cbn [fanOut_loop]. unfold bind at 1, fanOut_step, bind at 1, invoke.
    destruct (action v (world s)) as [[res err|msg] w].
    + set (c := mkCall v res err).
      destruct v as [a|]; [|by exists [c], w].
      set (s1 := set_calls (calls s ++ [c]) (set_world w s)).
      assert (∀ results', ∃ new w',
        (fanOut_loop action l results' s1).2 = advance (c :: new) w' s) as Hrest.
      { intros results'. destruct (IH results' s1) as (new & w' & ->).
        exists new, w'. unfold advance, s1. cbn. by rewrite <- app_assoc. }
      destruct err as [e|]; unfold ret;
        match goal with |- context [fanOut_loop action l ?r s1] =>
          destruct (Hrest r) as (new & w' & Hr); exists (c :: new), w'; exact Hr
        end.
    + exists [], w. cbn. unfold advance. rewrite app_nil_r. by destruct s.
Qed.

(** The fan-out writes nothing to standard output and leaves the selector
    in place, however it ends. *)
Lemma fanOut_preserves action s :
  stdout (fanOut action s).2 = stdout s ∧
  findAccounts (fanOut action s).2 = findAccounts s.
Proof.
  unfold fanOut, bind, gets.
  destruct (holds_or_unloadable (keyfile_path s)) as [[ks Hk]|[e He]].
  - rewrite (call_findAccounts_ok _ s ks Hk).
    match goal with |- context [fanOut_loop ?a ?l ?r ?s0] =>
      destruct (fanOut_loop_frame a l r s0) as (new & w & ->) end.
    done.
  - by rewrite (call_findAccounts_fail _ s e He).
Qed.




(** ** The credential store and the registry *)

(** C8: with no keyfile given (the setting is the empty string)
    [initAccounts] reads the path "keys.json", and the registry is built
    from what that file holds; with a keyfile given, that very path is read,
    the setting stays as it was, and the registry is built from that
    file. *)
Theorem C8_default_keyfile (s : Process) :
  ∃ o s', initAccounts s = (o, s') ∧
    (keyfile s = "" →
       reads s' = reads s ++ ["keys.json"] ∧
       ∀ ks, holds_keys "keys.json" ks →
             o = Ret tt ∧ accounts s' = Map (registry (debug s) ks)) ∧
    (keyfile s ≠ "" →
       reads s' = reads s ++ [keyfile s] ∧ keyfile s' = keyfile s ∧
       ∀ ks, holds_keys (keyfile s) ks →
             o = Ret tt ∧ accounts s' = Map (registry (debug s) ks)).
Proof.
  assert (∀ o s', initAccounts s = (o, s') →
    reads s' = reads s ++ [keyfile_path s] ∧ keyfile s' = keyfile_path s ∧
    ∀ ks, holds_keys (keyfile_path s) ks →
          o = Ret tt ∧ accounts s' = Map (registry (debug s) ks)) as Hgen.
  { intros o s' Hrun.
    destruct (holds_or_unloadable (keyfile_path s)) as [[ks Hk]|[e He]].
    - rewrite (initAccounts_ok s ks Hk) in Hrun. injection Hrun as <- <-.
      repeat split; try done.
      by rewrite (holds_keys_inj _ _ _ Hk H).
    - rewrite (initAccounts_fail s e He) in Hrun. injection Hrun as <- <-.
      repeat split; try done; by destruct (holds_not_unloadable _ _ _ H He). }
  destruct (initAccounts s) as [o s'] eqn:Hrun. exists o, s'.
  destruct (Hgen o s' eq_refl) as (Hreads & Hkf & Hreg).
  unfold keyfile_path in *. split; [done|].
  split; intros Hcase; destruct (decide (keyfile s = "")); try done.
Qed.

(** C4: the registry [initAccounts] builds from the records of the keyfile
    has an entry under a name exactly when some record carries that name,
    hence as many entries as there are distinct names; each entry is an
    account (never nil) whose name is its key; and of the records that share
    a name, the account made from the last one is the one stored. *)
Theorem C4_registry_last_wins (s : Process) (ks : list AccountKey.t) :
  holds_keys (keyfile_path s) ks →
  ∃ s' reg, initAccounts s = (Ret tt, s') ∧ accounts s' = Map reg ∧
    (∀ n, is_Some (reg !! n) ↔ n ∈ AccountKey.Name <$> ks) ∧
    size reg = length (remove_dups (AccountKey.Name <$> ks)) ∧
    (∀ n p, reg !! n = Some p → ∃ a, p = Some a ∧ Account.Name a = n) ∧
    (∀ i key, ks !! i = Some key →
       (∀ j key', i < j → ks !! j = Some key' →
                  AccountKey.Name key' ≠ AccountKey.Name key) →
       reg !! AccountKey.Name key = Some (Some (newAccount (debug s) key))).
Proof.
  intros Hk. exists (after_init ks s), (registry (debug s) ks).
  split; [by apply initAccounts_ok|]. split; [done|].
  split; [|split; [apply registry_size|split]].
  - intros n. rewrite <- elem_of_dom, registry_dom. apply elem_of_list_to_set.
  - intros n [a|] Hn; [|by destruct (registry_no_nil _ _ _ Hn)].
    exists a. split; [done|]. by eapply registry_named.
  - intros i key Hi Hlast. by eapply registry_from_last.
Qed.

(** C5: on the registry [initAccounts] builds, [findAccountsImpl] with the
    empty name returns the whole registry, and with a name under which the
    registry holds an account it returns the one-entry map from that name
    to that account. *)
Theorem C5_selector_all_or_named (s : Process) (ks : list AccountKey.t) :
  holds_keys (keyfile_path s) ks →
  ∃ s' reg, initAccounts s = (Ret tt, s') ∧ accounts s' = Map reg ∧
    findAccountsImpl "" s = (Ret (Map reg), s') ∧
    ∀ n a, n ≠ "" → reg !! n = Some (Some a) →
      findAccountsImpl n s = (Ret (Map {[ n := Some a ]}), s') ∧
      size ({[ n := Some a ]} : gmap string AccountPtr) = 1 ∧
      Account.Name a = n.
Proof.
  intros Hk. exists (after_init ks s), (registry (debug s) ks).
  split; [by apply initAccounts_ok|]. split; [done|].
  unfold findAccountsImpl, bind. rewrite (initAccounts_ok s ks Hk).
  split; [done|]. intros n a Hn Hreg. unfold gets.
  destruct (decide (n = "")); [done|].
  unfold index. cbn [accounts after_init set_accounts entries].
  rewrite Hreg. cbn. split; [done|]. split; [apply map_size_singleton|].
  by eapply registry_named.
Qed.

(** C6: when the keyfile cannot be read, or its content does not decode
    into records, [accountsDo] (and so [runOnce]) ends the process with
    status 1 after one line on standard error: no operation has been
    invoked, the world is untouched and nothing has been written to
    standard output. *)
Theorem C6_unloadable_keyfile_is_fatal (action : Action) (postAction : list PostAction)
    (s : Process) (e : error) :
  unloadable (keyfile_path s) e →
  ∃ s' s'',
    accountsDo action postAction s = (Exit 1, s') ∧
    runOnce action postAction s = (Exit 1, s'') ∧
    exit_status (accountsDo action postAction s).1 = 1%Z ∧
    exit_status (runOnce action postAction s).1 = 1%Z ∧
    calls s' = calls s ∧ world s' = world s ∧ stdout s' = stdout s ∧
    calls s'' = calls s ∧ world s'' = world s ∧ stdout s'' = stdout s ∧
    stderr s' = stderr s ++ ["failed to load keys: " +:+ Error e] ∧
    stderr s'' = stderr s ++ ["failed to load keys: " +:+ Error e].
Proof.
  intros He.
  assert (∀ s0, keyfile_path s0 = keyfile_path s →
    accountsDo action postAction s0 =
    (Exit 1, set_stderr (stderr s0 ++ ["failed to load keys: " +:+ Error e])
                        (after_read s0))) as Hdo.
  { intros s0 Hp. unfold accountsDo, bind at 1, fanOut, bind at 1, gets at 1, bind at 1.
    rewrite (call_findAccounts_fail _ s0 e); [done|by rewrite Hp]. }
  eexists _, _. split; [by apply Hdo|].
  split; [unfold runOnce, bind, modify; by apply Hdo|].
  unfold runOnce, bind, modify. rewrite !Hdo by done. done.
Qed.

(** ** The fan-out executor *)


(** What the loop of [accountsDo] does to a selection whose accounts all
    exist, for an operation that returns on such accounts. *)
Lemma fanOut_spec action s sel s1 :
  call_findAccounts (name s) s = (Ret sel, s1) →
  (∀ k v, entries sel !! k = Some v → is_Some v) →
  returns_on_accounts action →
  ∃ new w,
    fanOut action s = (Ret (foldl record_call ∅ new), advance new w s1) ∧
    stdout s1 = stdout s ∧ calls s1 = calls s ∧
    call_account <$> new = (rangeOrder (entries sel)).*2 ∧
    call_key <$> new = (rangeOrder (entries sel)).*1 ∧
    ∀ k a, entries sel !! k = Some (Some a) → Account.Name a = k.
Proof.
  intros Hsel Hsome Hact.
  destruct (call_findAccounts_inv _ _ _ _ Hsel) as (ks & Hk & Hs & ->).
  assert (∀ k a, entries sel !! k = Some (Some a) → Account.Name a = k) as Hnamed.
  { intros k a. rewrite Hs. apply select_named. }
  destruct (fanOut_loop_returns action (rangeOrder (entries sel)) Hact) with
    (results := (∅ : Results)) (s := after_init ks s) as (new & w & Hloop & Hnew).
  { intros [k v] Hin. apply rangeOrder_elem in Hin. by eapply Hsome. }
  exists new, w. split.
  { unfold fanOut, bind at 1, gets at 1, bind at 1. by rewrite Hsel. }
  do 3 (split; [done|]). split; [|done].
  apply call_keys_of_range; [|done].
  intros k v Hin. apply rangeOrder_elem in Hin.
  destruct (Hsome k v Hin) as [a ->]. exists a. split; [done|]. by apply Hnamed.
Qed.

(** C2: for a selection of N accounts, all of which exist, and an operation
    that returns on accounts, the loop of [accountsDo] invokes the operation
    once on every selected account, whatever the earlier invocations
    returned, and hands on a result mapping of exactly N entries, under the
    names of the selected accounts: the entry of an account whose invocation
    returned an error is the string that starts with "error: " and goes on
    with the message of the error, the entry of any other account is the
    value its invocation returned. *)
Theorem C2_fanOut_isolates_failures (action : Action) (s : Process)
    (sel : AccountMap) (s1 : Process) :
  call_findAccounts (name s) s = (Ret sel, s1) →
  (∀ k v, entries sel !! k = Some v → is_Some v) →
  returns_on_accounts action →
  ∃ results s2 new,
    fanOut action s = (Ret results, s2) ∧
    (∀ postAction, accountsDo action postAction s = finish postAction results s2) ∧
    calls s2 = calls s ++ new ∧
    call_account <$> new = (rangeOrder (entries sel)).*2 ∧
    length new = size (entries sel) ∧
    size results = size (entries sel) ∧
    dom results = dom (entries sel) ∧
    ∀ c, c ∈ new →
      ∃ a, call_account c = Some a ∧
           entries sel !! Account.Name a = Some (Some a) ∧
           (∀ e, call_err c = Some e →
                 results !! Account.Name a = Some (IString ("error: " +:+ Error e))) ∧
           (call_err c = None → results !! Account.Name a = Some (call_res c)).
Proof.
  intros Hsel Hsome Hact.
  destruct (fanOut_spec action s sel s1 Hsel Hsome Hact)
    as (new & w & Hrun & _ & Hcalls & Hnew & Hkeys & Hnamed).
  exists (foldl record_call ∅ new), (advance new w s1), new.
  split; [done|]. split.
  { intros postAction. unfold accountsDo, bind. by rewrite Hrun. }
  split; [by cbn; rewrite Hcalls|]. split; [done|].
  assert (dom (foldl record_call (∅ : Results) new) = dom (entries sel)) as Hdom.
  { rewrite foldl_record_call_dom, Hkeys, rangeOrder_dom. set_solver. }
  split; [|split; [|split; [done|]]].
  - rewrite <- rangeOrder_length, <- (length_fmap snd), <- Hnew.
    by rewrite length_fmap.
  - by rewrite <- !size_dom, Hdom.
  - intros c Hc.
    assert (call_account c ∈ (rangeOrder (entries sel)).*2) as Hin.
    { rewrite <- Hnew. by apply list_elem_of_fmap_2. }
    apply list_elem_of_fmap in Hin as ([k v] & Hv & Hin). cbn in Hv.
    apply rangeOrder_elem in Hin. destruct (Hsome k v Hin) as [a ->].
    pose proof (Hnamed k a Hin) as <-.
    exists a. split; [done|]. split; [done|].
    assert (foldl record_call (∅ : Results) new !! Account.Name a = Some (entry_of c))
      as Hentry.
    { replace (Account.Name a) with (call_key c) by (unfold call_key; by rewrite Hv).
      apply foldl_record_call_lookup; [|done].
      rewrite Hkeys. apply rangeOrder_NoDup. }
    rewrite Hentry. unfold entry_of. split.
    + by intros e ->.
    + by intros ->.
Qed.

Lemma print_ok v out s :
  MarshalIndent v = inl out →
  print v s = (Ret None, set_stdout (stdout s ++ [out]) s).
Proof. intros Hm. unfold print. by rewrite Hm. Qed.

Lemma print_fail v e s :
  MarshalIndent v = inr e → print v s = (Ret (Some (Trace e)), s).
Proof. intros Hm. unfold print. by rewrite Hm. Qed.

(** C3: once the loop has produced [results] without writing anything:
    with a finalizer that returns an error, [accountsDo] returns that error
    (traced) and standard output stays as it was; with a finalizer that
    returns a value, the encoding of that value is the one document
    written; with no finalizer, the encoding of [results] is the one
    document written.  A value that does not encode is reported as an error
    and nothing is written. *)
Theorem C3_finalizer_or_raw (action : Action) (postAction : list PostAction)
    (s : Process) (results : Results) (s1 : Process) :
  fanOut action s = (Ret results, s1) →
  stdout s1 = stdout s ∧
  (∀ post rest v e, postAction = post :: rest → post results = (v, Some e) →
     accountsDo action postAction s = (Ret (Some (Trace e)), s1)) ∧
  (∀ post rest v out, postAction = post :: rest → post results = (v, None) →
     MarshalIndent v = inl out →
     accountsDo action postAction s = (Ret None, set_stdout (stdout s ++ [out]) s1)) ∧
  (∀ post rest v e, postAction = post :: rest → post results = (v, None) →
     MarshalIndent v = inr e →
     accountsDo action postAction s = (Ret (Some (Trace e)), s1)) ∧
  (∀ out, postAction = [] → MarshalIndent (IMap results) = inl out →
     accountsDo action postAction s = (Ret None, set_stdout (stdout s ++ [out]) s1)) ∧
  (∀ e, postAction = [] → MarshalIndent (IMap results) = inr e →
     accountsDo action postAction s = (Ret (Some (Trace e)), s1)).
Proof.
  intros Hrun.
  assert (stdout s1 = stdout s) as Hout.
  { destruct (fanOut_preserves action s) as [H _]. by rewrite Hrun in H. }
  split; [done|]. unfold accountsDo, bind. rewrite Hrun, <- Hout.
  repeat split.
  - intros post rest v e -> Hpost. cbn. by rewrite Hpost.
  - intros post rest v out -> Hpost Hm. cbn. rewrite Hpost. by apply print_ok.
  - intros post rest v e -> Hpost Hm. cbn. rewrite Hpost. by apply print_fail.
  - intros out -> Hm. cbn. by apply print_ok.
  - intros e -> Hm. cbn. by apply print_fail.
Qed.


Lemma rangeOrder_empty : rangeOrder ∅ = [].
Proof.
  apply Permutation_nil_r. rewrite (rangeOrder_perm ∅).
  by rewrite map_to_list_empty.
Qed.

Lemma rangeOrder_singleton k v : rangeOrder {[ k := v ]} = [(k, v)].
Proof.
  apply Permutation_singleton_r. rewrite (rangeOrder_perm _).
  by rewrite map_to_list_singleton.
Qed.

(** C10: with a keyfile that holds no record, the empty name filter and no
    finalizer, the selector returns the empty map (by name) or the nil map
    (the closure of [runOnce]); [accountsDo] invokes no operation, writes
    the encoding of the empty result mapping and nothing else, and returns
    nil, so the process leaves with status 0. *)
Theorem C10_no_credentials (action : Action) (s : Process) :
  holds_keys (keyfile_path s) [] →
  name s = "" →
  ∃ out s1 s2,
    call_findAccounts (name s) s =
      (Ret (match findAccounts s with FindImpl => Map ∅ | FindOnce => NilMap end), s1) ∧
    fanOut action s = (Ret ∅, s1) ∧
    MarshalIndent (IMap ∅) = inl out ∧
    accountsDo action [] s = (Ret None, s2) ∧
    stdout s2 = stdout s ++ [out] ∧
    calls s2 = calls s ∧ world s2 = world s ∧
    exit_status (accountsDo action [] s).1 = 0%Z.
Proof.
  intros Hk Hn.
  destruct (MarshalIndent_strings ∅) as [out Hm].
  { intros k v. by rewrite lookup_empty. }
  assert (call_findAccounts (name s) s =
    (Ret (match findAccounts s with FindImpl => Map ∅ | FindOnce => NilMap end),
     after_init [] s)) as Hsel.
  { rewrite (call_findAccounts_ok _ s [] Hk). f_equal. f_equal.
    unfold select, select_by_name, select_once. rewrite Hn. cbn.
    destruct (findAccounts s); [done|]. unfold registry. cbn.
    by rewrite rangeOrder_empty. }
  assert (fanOut action s = (Ret ∅, after_init [] s)) as Hrun.
  { unfold fanOut, bind at 1, gets at 1, bind at 1. rewrite Hsel.
    destruct (findAccounts s); cbn [entries]; by rewrite rangeOrder_empty. }
  exists out, (after_init [] s), (set_stdout (stdout s ++ [out]) (after_init [] s)).
  assert (accountsDo action [] s =
    (Ret None, set_stdout (stdout s ++ [out]) (after_init [] s))) as Hdo.
  { unfold accountsDo, bind. rewrite Hrun. cbn [finish]. by rewrite (print_ok _ out). }
  rewrite Hdo. done.
Qed.

(** C1: when the name filter is a name that no record carries,
    [findAccountsImpl] returns the one-entry map from that name to nil, and
    [accountsDo] on it panics: either inside the operation, or, when the
    operation returns, with a nil dereference at [account.Name].  Nothing is
    written to standard output and the process leaves with status 2; no
    error string is recorded for the name. *)
Theorem C1_absent_name_panics (action : Action) (postAction : list PostAction)
    (s : Process) (ks : list AccountKey.t) :
  holds_keys (keyfile_path s) ks →
  findAccounts s = FindImpl →
  name s ≠ "" →
  name s ∉ AccountKey.Name <$> ks →
  ∃ s1 msg s2,
    call_findAccounts (name s) s = (Ret (Map {[ name s := None ]}), s1) ∧
    accountsDo action postAction s = (Panic msg, s2) ∧
    (∀ res err w, action None (world s) = (Returns res err, w) → msg = nil_deref) ∧
    stdout s2 = stdout s ∧
    exit_status (accountsDo action postAction s).1 = 2%Z.
Proof.
  intros Hk Hf Hne Habs.
  assert (registry (debug s) ks !! name s = None) as Hnone.
  { apply eq_None_not_Some. rewrite <- elem_of_dom, registry_dom.
    by rewrite elem_of_list_to_set. }
  assert (call_findAccounts (name s) s =
          (Ret (Map {[ name s := None ]}), after_init ks s)) as Hsel.
  { rewrite (call_findAccounts_ok _ s ks Hk), Hf. cbn. unfold select_by_name.
    destruct (decide (name s = "")); [done|]. unfold index. cbn.
    by rewrite Hnone. }
  assert (∃ msg s2, fanOut action s = (Panic msg, s2) ∧ stdout s2 = stdout s ∧
    ∀ res err w', action None (world s) = (Returns res err, w') → msg = nil_deref)
    as (msg & s2 & Hrun & Hout & Hmsg).
  { unfold fanOut, bind at 1, gets at 1, bind at 1. rewrite Hsel.
    cbn [entries]. rewrite rangeOrder_singleton. cbn [fanOut_loop].
    unfold bind at 1, fanOut_step, bind at 1, invoke.
    cbn [world after_init after_read set_accounts set_reads set_keyfile].
    destruct (action None (world s)) as [[res err|msg] w].
    - by eexists nil_deref, _.
    - by eexists msg, _. }
  exists (after_init ks s), msg, s2. split; [done|].
  assert (accountsDo action postAction s = (Panic msg, s2)) as Hdo.
  { unfold accountsDo, bind. by rewrite Hrun. }
  rewrite Hdo. done.
Qed.

(** ** The selector installed by [runOnce] *)

Lemma name_blind_ret {A} (a : A) : name_blind (ret a).
Proof. done. Qed.

Lemma name_blind_panic {A} msg : name_blind (panic (A:=A) msg).
Proof. done. Qed.














End Properties.

(** * Further properties of the executor and the registry *)

Section Further.
Context `{Ext : Externals}.

Abbreviation value := (iface Payload).
Abbreviation Results := (gmap string (iface Payload)).

Notation "'let*' x ':=' m 'in' k" := (bind m (λ x, k))
  (at level 10, x pattern, m at level 100, k at level 200).

(** ** Where a run can end *)

(** The loop returns or panics; it never leaves through [os.Exit]. *)
Lemma fanOut_loop_no_exit action l : ∀ results s code,
  (fanOut_loop action l results s).1 ≠ Exit code.
Proof.
  induction l as [|[k v] l IH]; intros results s code; [done|].
  cbn [fanOut_loop]. unfold bind at 1, fanOut_step, bind at 1, invoke.
  destruct (action v (world s)) as [[res err|msg] w]; [|done].
  destruct v as [a|]; [|done]. destruct err as [e|]; apply IH.
Qed.

(** The state the fan-out ends in: the keyfile has been read, then either
    the registry is in place and some calls have been made, or the fatal line
    is on standard error. *)
Lemma fanOut_state action s :
  (∃ ks new w, holds_keys (keyfile_path s) ks ∧
     (fanOut action s).2 = advance new w (after_init ks s) ∧
     ∀ code, (fanOut action s).1 ≠ Exit code) ∨
  (∃ e, unloadable (keyfile_path s) e ∧
     fanOut action s =
     (Exit 1, set_stderr (stderr s ++ ["failed to load keys: " +:+ Error e])
                         (after_read s))).
Proof.
  unfold fanOut, bind, gets.
  destruct (holds_or_unloadable (keyfile_path s)) as [[ks Hk]|[e He]].
  - left. rewrite (call_findAccounts_ok _ s ks Hk).
    match goal with |- context [fanOut_loop ?a ?l ?r ?s0] =>
      destruct (fanOut_loop_frame a l r s0) as (new & w & Hs);
      pose proof (fanOut_loop_no_exit a l r s0) as Hne end.
    exists ks, new, w. done.
  - right. exists e. by rewrite (call_findAccounts_fail _ s e He).
Qed.

(** [finish] leaves the state alone or appends one line to standard
    output, and it appends exactly when it returns nil. *)
Lemma finish_state postAction results s :
  ((finish postAction results s).1 = Ret None ∧
   ∃ out, (finish postAction results s).2 = set_stdout (stdout s ++ [out]) s) ∨
  ((∃ e, (finish postAction results s).1 = Ret (Some e)) ∧
   (finish postAction results s).2 = s).
Proof.
  assert (∀ v, (print v s).1 = Ret None ∧
               (∃ out, (print v s).2 = set_stdout (stdout s ++ [out]) s) ∨
               (∃ e, (print v s).1 = Ret (Some e)) ∧ (print v s).2 = s) as Hprint.
  { intros v. unfold print. destruct (MarshalIndent v) as [out|e]; cbn.
    - left. split; [done|]. by exists out.
    - right. split; [|done]. by eexists. }
  unfold finish. destruct postAction as [|post rest]; [apply Hprint|].
  destruct (post results) as [v [e|]]; [|apply Hprint].
  right. split; [|done]. by eexists.
Qed.

(** X1: whatever the selector, the operation and the way it ends, one call
    of [accountsDo] reads exactly one file, the keyfile (the default path when
    the setting is empty); it leaves that path in [keyfile] and does not touch
    [name], [debug] or [findAccounts]. *)
Theorem accountsDo_reads_keyfile_once (action : Action) (postAction : list PostAction)
    (s : Process) :
  reads (accountsDo action postAction s).2 = reads s ++ [keyfile_path s] ∧
  keyfile (accountsDo action postAction s).2 = keyfile_path s ∧
  name (accountsDo action postAction s).2 = name s ∧
  debug (accountsDo action postAction s).2 = debug s ∧
  findAccounts (accountsDo action postAction s).2 = findAccounts s.
Proof.
  unfold accountsDo, bind.
  destruct (fanOut_state action s) as [(ks & new & w & _ & Hs & _)|(e & _ & Hrun)].
  - destruct (fanOut action s) as [[results|code|msg] s1]; cbn in Hs; subst s1;
      [|done..].
    destruct (finish_state postAction results (advance new w (after_init ks s)))
      as [[_ [out ->]]|[_ ->]]; done.
  - by rewrite Hrun.
Qed.

(** X2: a call of [accountsDo] appends exactly one line to standard output
    when it returns nil, and leaves standard output as it was in every other
    case (an error returned, a fatal exit, a panic); and the process status is
    0 exactly when it returns nil. *)
Theorem accountsDo_writes_iff_nil (action : Action) (postAction : list PostAction)
    (s : Process) :
  ((accountsDo action postAction s).1 = Ret None ∧
   ∃ out, stdout (accountsDo action postAction s).2 = stdout s ++ [out]) ∨
  ((accountsDo action postAction s).1 ≠ Ret None ∧
   exit_status (accountsDo action postAction s).1 ≠ 0%Z ∧
   stdout (accountsDo action postAction s).2 = stdout s).
Proof.
  unfold accountsDo, bind.
  destruct (fanOut_state action s)
    as [(ks & new & w & _ & Hs & Hne)|(e & _ & Hrun)].
  - destruct (fanOut action s) as [[results|code|msg] s1]; cbn in Hs, Hne; subst s1.
    + destruct (finish_state postAction results (advance new w (after_init ks s)))
        as [[Hret [out Hst]]|[[e Hret] Hst]].
      * left. split; [done|]. exists out. by rewrite Hst.
      * right. rewrite Hret, Hst. done.
    + by destruct (Hne code).
    + right. done.
  - right. rewrite Hrun. done.
Qed.

(** ** Where the accounts come from *)

(** An account of the registry was made from a record of that name. *)
Lemma registry_from_origin dbg m ks n a :
  registry_from dbg m ks !! n = Some (Some a) →
  m !! n = Some (Some a) ∨
  ∃ key, key ∈ ks ∧ AccountKey.Name key = n ∧ a = newAccount dbg key.
Proof.
  induction ks as [|key ks IH] using rev_ind; [by left|].
  rewrite registry_from_snoc.
  destruct (decide (AccountKey.Name key = n)) as [<-|Hne].
  - rewrite lookup_insert_eq. intros [= <-]. right. exists key.
    split; [|done]. apply elem_of_app. right. by left.
  - rewrite lookup_insert_ne by done. intros [?|(key' & Hin & ? & ?)]%IH; [by left|].
    right. exists key'. split; [|done]. apply elem_of_app. by left.
Qed.

Lemma registry_origin dbg ks n a :
  registry dbg ks !! n = Some (Some a) →
  ∃ key, key ∈ ks ∧ AccountKey.Name key = n ∧ a = newAccount dbg key.
Proof.
  intros [Hm|?]%registry_from_origin; [|done]. by rewrite lookup_empty in Hm.
Qed.

(** X3: every account [initAccounts] stores was made from one record of the
    keyfile: it sits under that record's name, its client carries the API key
    and the secret key of that same record, and the client's debug switch is
    the [debug] flag. *)
Theorem registry_accounts_from_records (s : Process) (ks : list AccountKey.t) :
  holds_keys (keyfile_path s) ks →
  ∃ s' reg, initAccounts s = (Ret tt, s') ∧ accounts s' = Map reg ∧
    ∀ n a, reg !! n = Some (Some a) →
      ∃ key, key ∈ ks ∧ AccountKey.Name key = n ∧ Account.Name a = n ∧
        binance.APIKey (Account.Client a) = AccountKey.APIKey key ∧
        binance.SecretKey (Account.Client a) = AccountKey.SecretKey key ∧
        binance.Debug (Account.Client a) = debug s.
Proof.
  intros Hk. exists (after_init ks s), (registry (debug s) ks).
  split; [by apply initAccounts_ok|]. split; [done|].
  intros n a (key & Hin & Hn & ->)%registry_origin.
  exists key. unfold newAccount. by destruct (debug s).
Qed.

(** With one record per name, the last record of a name is the only one. *)
Lemma registry_lookup_NoDup dbg ks key :
  NoDup (AccountKey.Name <$> ks) → key ∈ ks →
  registry dbg ks !! AccountKey.Name key = Some (Some (newAccount dbg key)).
Proof.
  intros Hnd [i Hi]%list_elem_of_lookup.
  apply (registry_from_last dbg ∅ ks i); [done|].
  intros j key' Hij Hj Heq.
  assert (i = j); [|lia].
  apply (NoDup_lookup _ i j (AccountKey.Name key) Hnd).
  - by rewrite list_lookup_fmap, Hi.
  - rewrite list_lookup_fmap, Hj. cbn. by rewrite Heq.
Qed.

(** X4: when no two records share a name, the order of the records in the
    keyfile does not matter: two keyfiles that hold the same records in
    different orders give the same registry. *)
Theorem registry_order_irrelevant (s s' : Process) (ks ks' : list AccountKey.t) :
  holds_keys (keyfile_path s) ks →
  holds_keys (keyfile_path s') ks' →
  debug s = debug s' →
  NoDup (AccountKey.Name <$> ks) →
  ks ≡ₚ ks' →
  (initAccounts s).1 = Ret tt ∧ (initAccounts s').1 = Ret tt ∧
  accounts (initAccounts s).2 = accounts (initAccounts s').2.
Proof.
  intros Hk Hk' Hdbg Hnd Hperm.
  rewrite (initAccounts_ok s ks Hk), (initAccounts_ok s' ks' Hk').
  split; [done|]. split; [done|]. cbn. f_equal. rewrite <- Hdbg.
  assert (NoDup (AccountKey.Name <$> ks')) as Hnd' by by rewrite <- Hperm.
  apply map_eq. intros n.
  destruct (decide (n ∈ AccountKey.Name <$> ks)) as [Hin|Hout].
  - apply list_elem_of_fmap in Hin as (key & -> & Hin).
    rewrite (registry_lookup_NoDup _ ks key) by done.
    rewrite (registry_lookup_NoDup _ ks' key); [done..|]. by rewrite <- Hperm.
  - assert (registry (debug s) ks !! n = None) as ->.
    { apply eq_None_not_Some. rewrite <- elem_of_dom, registry_dom.
      by rewrite elem_of_list_to_set. }
    symmetry. apply eq_None_not_Some. rewrite <- elem_of_dom, registry_dom.
    by rewrite elem_of_list_to_set, <- Hperm.
Qed.

(** X5: [initAccounts] run a second time builds the same registry from the
    same path (the default, once taken, stays in [keyfile]); the only trace of
    the second run is one more read of the file. *)
Theorem initAccounts_twice (s : Process) (ks : list AccountKey.t) :
  holds_keys (keyfile_path s) ks →
  ∃ s1 s2, initAccounts s = (Ret tt, s1) ∧ initAccounts s1 = (Ret tt, s2) ∧
    accounts s2 = accounts s1 ∧ keyfile s2 = keyfile s1 ∧
    reads s2 = reads s1 ++ [keyfile s1] ∧
    s2 = set_reads (reads s1 ++ [keyfile s1]) s1.
Proof.
  intros Hk.
  assert (keyfile_path (after_init ks s) = keyfile_path s) as Hp.
  { unfold keyfile_path at 1. cbn [keyfile after_init after_read set_accounts
      set_reads set_keyfile].
    destruct (decide (keyfile_path s = "")) as [He|]; [|done].
    unfold keyfile_path in He. by destruct (decide (keyfile s = "")). }
  exists (after_init ks s), (after_init ks (after_init ks s)).
  split; [by apply initAccounts_ok|].
  split; [apply initAccounts_ok; by rewrite Hp|].
  assert (after_init ks (after_init ks s) =
          set_reads (reads (after_init ks s) ++ [keyfile_path s]) (after_init ks s))
    as ->.
  { unfold after_init at 1. unfold after_read at 1. rewrite Hp. reflexivity. }
  repeat split; reflexivity.
Qed.

(** ** Selections of one account *)

Lemma fanOut_loop_single action k a :
  returns_on_accounts action →
  ∀ results s, ∃ c w,
    fanOut_loop action [(k, Some a)] results s =
      (Ret (<[Account.Name a := entry_of c]> results), advance [c] w s) ∧
    call_account c = Some a.
Proof.
  intros Hact results s.
  destruct (fanOut_loop_returns action [(k, Some a)] Hact) with
    (results := results) (s := s) as (new & w & Hloop & Hnew).
  { intros kv ->%list_elem_of_singleton. by eexists. }
  destruct new as [|c [|c' new]]; try done. injection Hnew as Hc.
  exists c, w. split; [|done]. rewrite Hloop. cbn. unfold record_call, call_key.
  by rewrite Hc.
Qed.

Lemma registry_nonempty_range dbg ks :
  ks ≠ [] → ∃ k a l, rangeOrder (registry dbg ks) = (k, Some a) :: l.
Proof.
  intros Hks. destruct ks as [|key ks]; [done|].
  assert (is_Some (registry dbg (key :: ks) !! AccountKey.Name key)) as [v Hv].
  { apply registry_from_is_Some. right. by left. }
  apply rangeOrder_elem in Hv.
  destruct (rangeOrder (registry dbg (key :: ks))) as [|[k [a|]] l] eqn:Hl.
  - by apply elem_of_nil in Hv.
  - by exists k, a, l.
  - assert ((k, None) ∈ rangeOrder (registry dbg (key :: ks))) as Hnil
      by (rewrite Hl; by left).
    apply rangeOrder_elem in Hnil. by destruct (registry_no_nil _ _ _ Hnil).
Qed.

(** X6: with a keyfile that holds at least one record and an operation that
    returns on accounts, [runOnce] invokes the operation exactly once, on an
    account of the registry made from one of the records, and hands on a
    result mapping with that account's name as its only key; the name filter
    plays no part, so a filter that matches no record cannot make it panic. *)
Theorem runOnce_single_account (action : Action) (postAction : list PostAction)
    (s : Process) (ks : list AccountKey.t) :
  holds_keys (keyfile_path s) ks →
  ks ≠ [] →
  returns_on_accounts action →
  ∃ key a c s2,
    key ∈ ks ∧ a = newAccount (debug s) key ∧
    registry (debug s) ks !! Account.Name a = Some (Some a) ∧
    call_account c = Some a ∧
    calls s2 = calls s ++ [c] ∧
    accounts s2 = Map (registry (debug s) ks) ∧
    findAccounts s2 = FindOnce ∧
    runOnce action postAction s =
      finish postAction {[ Account.Name a := entry_of c ]} s2.
Proof.
  intros Hk Hks Hact.
  destruct (registry_nonempty_range (debug s) ks Hks) as (k & a & l & Hrange).
  assert (registry (debug s) ks !! k = Some (Some a)) as Hreg.
  { apply rangeOrder_elem. rewrite Hrange. by left. }
  pose proof (registry_named _ _ _ _ Hreg) as Hname.
  destruct (registry_origin _ _ _ _ Hreg) as (key & Hin & _ & Hkey).
  set (s0 := set_findAccounts FindOnce s).
  destruct (fanOut_loop_single action k a Hact ∅ (after_init ks s0))
    as (c & w & Hloop & Hc).
  exists key, a, c, (advance [c] w (after_init ks s0)).
  split; [done|]. split; [done|]. split; [by rewrite Hname|].
  split; [done|]. do 3 (split; [done|]).
  unfold runOnce, bind at 1, modify. fold s0.
  unfold accountsDo, bind at 1, fanOut, bind at 1, gets at 1, bind at 1.
  rewrite (call_findAccounts_ok _ s0 ks Hk).
  cbn [select findAccounts s0 set_findAccounts debug]. unfold select_once.
  rewrite Hrange. cbn [entries]. rewrite rangeOrder_singleton, Hloop.
  by rewrite insert_empty.
Qed.

(** X7: with the by-name selector and a name filter that some record
    carries, [accountsDo] invokes the operation exactly once, on the account
    the registry holds under that name, and hands on a result mapping with
    that name as its only key: the other accounts are not touched. *)
Theorem accountsDo_named_single (action : Action) (postAction : list PostAction)
    (s : Process) (ks : list AccountKey.t) :
  holds_keys (keyfile_path s) ks →
  findAccounts s = FindImpl →
  name s ≠ "" →
  name s ∈ AccountKey.Name <$> ks →
  returns_on_accounts action →
  ∃ key a c s2,
    key ∈ ks ∧ AccountKey.Name key = name s ∧ a = newAccount (debug s) key ∧
    registry (debug s) ks !! name s = Some (Some a) ∧
    call_account c = Some a ∧
    calls s2 = calls s ++ [c] ∧
    accounts s2 = Map (registry (debug s) ks) ∧
    accountsDo action postAction s = finish postAction {[ name s := entry_of c ]} s2.
Proof.
  intros Hk Hf Hne Hin Hact.
  assert (is_Some (registry (debug s) ks !! name s)) as [[a|] Hreg].
  { apply registry_from_is_Some. by right. }
  2: { by destruct (registry_no_nil _ _ _ Hreg). }
  pose proof (registry_named _ _ _ _ Hreg) as Hname.
  destruct (registry_origin _ _ _ _ Hreg) as (key & Hkin & Hkn & Hkey).
  destruct (fanOut_loop_single action (name s) a Hact ∅ (after_init ks s))
    as (c & w & Hloop & Hc).
  exists key, a, c, (advance [c] w (after_init ks s)).
  do 3 (split; [done|]). split; [done|]. split; [done|]. do 2 (split; [done|]).
  unfold accountsDo, bind at 1, fanOut, bind at 1, gets at 1, bind at 1.
  rewrite (call_findAccounts_ok _ s ks Hk), Hf.
  cbn [select]. unfold select_by_name.
  destruct (decide (name s = "")); [done|].
  unfold index. cbn [entries]. rewrite Hreg. cbn [default from_option id].
  rewrite rangeOrder_singleton, Hloop, Hname. by rewrite insert_empty.
Qed.

(** ** The selection of every account *)

(** X9: with the by-name selector, no name filter and an operation that
    returns on accounts, the fan-out makes as many calls as the keyfile has
    distinct names, one for the account of each name: every record's name
    gets a call and an entry in the result mapping, and no other key does. *)
Theorem accountsDo_all_accounts (action : Action) (s : Process)
    (ks : list AccountKey.t) :
  holds_keys (keyfile_path s) ks →
  findAccounts s = FindImpl →
  name s = "" →
  returns_on_accounts action →
  ∃ results s2 new,
    fanOut action s = (Ret results, s2) ∧
    calls s2 = calls s ++ new ∧
    length new = length (remove_dups (AccountKey.Name <$> ks)) ∧
    dom results = list_to_set (AccountKey.Name <$> ks) ∧
    ∀ key, key ∈ ks →
      ∃ c a, c ∈ new ∧ call_account c = Some a ∧
             Account.Name a = AccountKey.Name key ∧
             results !! AccountKey.Name key = Some (entry_of c).
Proof.
  intros Hk Hf Hn Hact.
  assert (call_findAccounts (name s) s =
          (Ret (Map (registry (debug s) ks)), after_init ks s)) as Hsel.
  { rewrite (call_findAccounts_ok _ s ks Hk), Hf, Hn. done. }
  destruct (fanOut_spec action s _ _ Hsel) as
    (new & w & Hrun & _ & Hcalls & Hnew & Hkeys & Hnamed); [|done|].
  { intros k [a|] Hv; [by eexists|]. by destruct (registry_no_nil _ _ _ Hv). }
  cbn [entries] in *.
  exists (foldl record_call ∅ new), (advance new w (after_init ks s)), new.
  split; [done|]. split; [done|]. split; [|split].
  - rewrite <- (registry_size (debug s)), <- rangeOrder_length.
    rewrite <- (length_fmap snd), <- Hnew. by rewrite length_fmap.
  - rewrite foldl_record_call_dom, Hkeys, rangeOrder_dom, registry_dom. set_solver.
  - intros key Hin.
    assert (is_Some (registry (debug s) ks !! AccountKey.Name key)) as [[a|] Hreg].
    { apply registry_from_is_Some. right. by apply list_elem_of_fmap_2. }
    2: { by destruct (registry_no_nil _ _ _ Hreg). }
    assert (Some a ∈ call_account <$> new) as Hc.
    { rewrite Hnew. apply list_elem_of_fmap. exists (AccountKey.Name key, Some a).
      split; [done|]. by apply rangeOrder_elem. }
    apply list_elem_of_fmap in Hc as (c & Hc & Hcin).
    pose proof (Hnamed _ _ Hreg) as Hname.
    exists c, a. split; [done|]. split; [done|]. split; [done|].
    replace (AccountKey.Name key) with (call_key c)
      by (unfold call_key; by rewrite <- Hc).
    apply foldl_record_call_lookup; [|done].
    rewrite Hkeys. apply rangeOrder_NoDup.
Qed.

(** ** Panics are not isolated *)

Lemma fanOut_loop_crash action msg k acc l2 :
  (∀ w, ∃ w', action acc w = (Crashes msg, w')) →
  ∀ l1,
    (∀ k' v, (k', v) ∈ l1 →
       ∃ a, v = Some a ∧
            ∀ w, ∃ res err w', action (Some a) w = (Returns res err, w')) →
    ∀ results s, ∃ new w,
      fanOut_loop action (l1 ++ (k, acc) :: l2) results s =
        (Panic msg, advance new w s) ∧
      call_account <$> new = l1.*2.
Proof.
  intros Hcrash. induction l1 as [|[k' v] l1 IH]; intros Hl1 results s.
  - destruct (Hcrash (world s)) as [w Hw]. exists [], w. split; [|done].
    cbn [app fanOut_loop]. unfold bind at 1, fanOut_step, bind at 1, invoke.
    rewrite Hw. unfold advance. rewrite app_nil_r. by destruct s.
  - destruct (Hl1 k' v) as (a & -> & Ha); [by left|].
    destruct (Ha (world s)) as (res & err & w & Hcall).
    cbn [app fanOut_loop]. unfold bind at 1, fanOut_step, bind at 1, invoke.
    rewrite Hcall.
    set (c := mkCall (Some a) res err).
    set (s1 := set_calls (calls s ++ [c]) (set_world w s)).
    assert (∀ k'' v', (k'', v') ∈ l1 →
       ∃ a', v' = Some a' ∧
             ∀ w, ∃ res err w', action (Some a') w = (Returns res err, w')) as Hl1'.
    { intros k'' v' ?. apply (Hl1 k'' v'). by right. }
    assert (∀ results', ∃ new w',
      fanOut_loop action (l1 ++ (k, acc) :: l2) results' s1 =
        (Panic msg, advance (c :: new) w' s) ∧
      call_account <$> (c :: new) = ((k', Some a) :: l1).*2) as Hrest.
    { intros results'. destruct (IH Hl1' results' s1) as (new & w' & Hloop & Hnew).
      exists new, w'. split; [|by cbn; rewrite Hnew].
      rewrite Hloop. unfold advance, s1. cbn. by rewrite <- app_assoc. }
    destruct err as [e|]; unfold ret;
      match goal with |- context [fanOut_loop action _ ?r s1] =>
        destruct (Hrest r) as (new & w' & Hr & Hn); exists (c :: new), w';
        split; [exact Hr|exact Hn]
      end.
Qed.

(** X8: only errors that the operation returns are isolated.  When the
    operation panics on a selected account, [accountsDo] panics with the same
    message: the accounts that [range] would have yielded later are not
    attempted, the finalizer is not run and nothing is written to standard
    output. *)
Theorem operation_panic_aborts (action : Action) (postAction : list PostAction)
    (s : Process) (sel : AccountMap) (s1 : Process)
    (l1 l2 : list (string * AccountPtr)) (k : string) (acc : AccountPtr)
    (msg : string) :
  call_findAccounts (name s) s = (Ret sel, s1) →
  rangeOrder (entries sel) = l1 ++ (k, acc) :: l2 →
  (∀ k' v, (k', v) ∈ l1 →
     ∃ a, v = Some a ∧
          ∀ w, ∃ res err w', action (Some a) w = (Returns res err, w')) →
  (∀ w, ∃ w', action acc w = (Crashes msg, w')) →
  ∃ new s2,
    accountsDo action postAction s = (Panic msg, s2) ∧
    calls s2 = calls s ++ new ∧
    call_account <$> new = l1.*2 ∧
    stdout s2 = stdout s ∧
    exit_status (accountsDo action postAction s).1 = 2%Z.
Proof.
  intros Hsel Hrange Hl1 Hcrash.
  destruct (call_findAccounts_inv _ _ _ _ Hsel) as (ks & Hk & _ & ->).
  destruct (fanOut_loop_crash action msg k acc l2 Hcrash l1 Hl1 ∅ (after_init ks s))
    as (new & w & Hloop & Hnew).
  assert (accountsDo action postAction s =
          (Panic msg, advance new w (after_init ks s))) as Hdo.
  { unfold accountsDo, bind at 1, fanOut, bind at 1, gets at 1, bind at 1.
    by rewrite Hsel, Hrange, Hloop. }
  exists new, (advance new w (after_init ks s)). rewrite Hdo. done.
Qed.

End Further.

Import Demo.

Example run_list_prices : fanOut list_prices (start "" "" FindImpl) = (Ret prices, priced).
Proof. vm_compute. reflexivity. Qed.

Example run_absent_name :
  (accountsDo offline [] (start "C" "" FindImpl)).1 = Panic nil_deref.
Proof. vm_compute. reflexivity. Qed.

Example run_once_ignores_name :
  stdout (runOnce list_prices [count_entries] (start "B" "" FindImpl)).2 = ["1"] ∧
  call_account <$> calls (runOnce list_prices [count_entries] (start "B" "" FindImpl)).2
    = [Some accountA].
Proof. split; vm_compute; reflexivity. Qed.

Lemma C4_registry_last_wins_witness :
  holds_keys (keyfile_path (start "" "" FindImpl)) [keyA; keyB; keyA'] ∧
  ∃ s' reg,
    initAccounts (start "" "" FindImpl) = (Ret tt, s') ∧ accounts s' = Map reg ∧
    size reg = 2 ∧ reg !! "A" = Some (Some (newAccount false keyA')).
Proof.
  assert (holds_keys (keyfile_path (start "" "" FindImpl)) [keyA; keyB; keyA']) as Hk.
  { exists "[A, B, A]". split; reflexivity. }
  split; [exact Hk|].
  destruct (C4_registry_last_wins (start "" "" FindImpl) _ Hk)
    as (s' & reg & Hrun & Hacc & _ & Hsize & _ & Hlast).
  exists s', reg. split; [exact Hrun|]. split; [exact Hacc|]. split.
  - rewrite Hsize. reflexivity.
  - apply (Hlast 2 keyA'); [reflexivity|].
    intros j key' Hj Hlook. apply lookup_lt_Some in Hlook. cbn in Hlook. lia.
Defined.

Lemma C5_selector_all_or_named_witness :
  holds_keys (keyfile_path (start "" "" FindImpl)) [keyA; keyB; keyA'] ∧
  ∃ s',
    findAccountsImpl "" (start "" "" FindImpl) = (Ret everyone, s') ∧
    findAccountsImpl "B" (start "" "" FindImpl) = (Ret (Map {[ "B" := Some accountB ]}), s').
Proof.
  assert (holds_keys (keyfile_path (start "" "" FindImpl)) [keyA; keyB; keyA']) as Hk.
  { exists "[A, B, A]". split; reflexivity. }
  split; [exact Hk|].
  destruct (C5_selector_all_or_named (start "" "" FindImpl) _ Hk)
    as (s' & reg & Hinit & Hacc & Hall & Hnamed).
  assert (reg = entries everyone) as ->.
  { vm_compute in Hinit. injection Hinit as <-. vm_compute in Hacc.
    injection Hacc as <-. vm_compute. reflexivity. }
  exists s'. split; [exact Hall|].
  apply Hnamed; [discriminate|reflexivity].
Defined.

Lemma C6_unloadable_keyfile_is_fatal_witness :
  unloadable (keyfile_path (start "" "broken.json" FindImpl))
             (New "unexpected end of JSON input") ∧
  ∃ s',
    accountsDo list_prices [] (start "" "broken.json" FindImpl) = (Exit 1, s') ∧
    calls s' = [] ∧ stdout s' = [] ∧
    stderr s' = ["failed to load keys: unexpected end of JSON input"].
Proof.
  assert (unloadable (keyfile_path (start "" "broken.json" FindImpl))
                     (New "unexpected end of JSON input")) as Hu.
  { right. exists "[A, ". split; reflexivity. }
  split; [exact Hu|].
  destruct (C6_unloadable_keyfile_is_fatal list_prices [] _ _ Hu)
    as (s' & s'' & Hdo & _ & _ & _ & Hcalls & _ & Hout & _ & _ & _ & Herr & _).
  exists s'. split; [exact Hdo|]. split; [exact Hcalls|]. split; [exact Hout|].
  exact Herr.
Defined.

Lemma everyone_exist k v : entries everyone !! k = Some v → is_Some v.
Proof.
  unfold everyone. cbn [entries].
  intros [[_ <-]|[_ [[_ <-]|[_ H]]%lookup_insert_Some]]%lookup_insert_Some; [eauto..|].
  by rewrite lookup_empty in H.
Qed.

Lemma C2_fanOut_isolates_failures_witness :
  call_findAccounts (name (start "" "" FindImpl)) (start "" "" FindImpl)
    = (Ret everyone, loaded) ∧
  (∀ k v, entries everyone !! k = Some v → is_Some v) ∧
  returns_on_accounts list_prices ∧
  ∃ results s2,
    fanOut list_prices (start "" "" FindImpl) = (Ret results, s2) ∧
    length (calls s2) = 2 ∧ size results = 2 ∧
    results !! "B" = Some (IString "error: invalid API key") ∧
    results !! "A" = Some (IPayload 75%Z).
Proof.
  assert (call_findAccounts (name (start "" "" FindImpl)) (start "" "" FindImpl)
          = (Ret everyone, loaded)) as Hsel by (vm_compute; reflexivity).
  assert (returns_on_accounts list_prices) as Hact.
  { intros a w. unfold list_prices. destruct (decide (Account.Name a = "B")); eauto. }
  split; [exact Hsel|]. split; [exact everyone_exist|]. split; [exact Hact|].
  destruct (C2_fanOut_isolates_failures list_prices _ _ _ Hsel everyone_exist Hact)
    as (results & s2 & new & Hrun & _ & Hcalls & _ & Hlen & Hsize & _ & Hentries).
  exists results, s2. split; [exact Hrun|].
  split; [rewrite Hcalls; change (length new = 2); rewrite Hlen; reflexivity|].
  split; [rewrite Hsize; reflexivity|].
  assert (new = calls priced) as ->.
  { rewrite run_list_prices in Hrun. injection Hrun as _ <-. exact (eq_sym Hcalls). }
  split.
  - destruct (Hentries callB) as (a & [= <-] & _ & Herr & _); [right; left|].
    exact (Herr _ eq_refl).
  - destruct (Hentries callA) as (a & [= <-] & _ & _ & Hok); [left|].
    exact (Hok eq_refl).
Defined.

Lemma C3_finalizer_or_raw_witness :
  fanOut list_prices (start "" "" FindImpl) = (Ret prices, priced) ∧
  accountsDo list_prices [no_totals] (start "" "" FindImpl)
    = (Ret (Some (Trace (New "no totals"))), priced) ∧
  accountsDo list_prices [count_entries] (start "" "" FindImpl)
    = (Ret None, set_stdout ["2"] priced).
Proof.
  split; [exact run_list_prices|].
  destruct (C3_finalizer_or_raw list_prices [no_totals] _ _ _ run_list_prices)
    as (_ & Herr & _).
  destruct (C3_finalizer_or_raw list_prices [count_entries] _ _ _ run_list_prices)
    as (_ & _ & Hval & _).
  split.
  - exact (Herr no_totals [] INil (New "no totals") eq_refl eq_refl).
  - exact (Hval count_entries [] (IPayload 2%Z) "2" eq_refl eq_refl eq_refl).
Defined.


Lemma C10_no_credentials_witness :
  holds_keys (keyfile_path (start "" "none.json" FindOnce)) [] ∧
  name (start "" "none.json" FindOnce) = "" ∧
  ∃ s2,
    accountsDo list_prices [] (start "" "none.json" FindOnce) = (Ret None, s2) ∧
    stdout s2 = ["{}"] ∧ calls s2 = [] ∧
    exit_status (accountsDo list_prices [] (start "" "none.json" FindOnce)).1 = 0%Z.
Proof.
  assert (holds_keys (keyfile_path (start "" "none.json" FindOnce)) []) as Hk.
  { exists "[]". split; reflexivity. }
  split; [exact Hk|]. split; [reflexivity|].
  destruct (C10_no_credentials list_prices _ Hk eq_refl)
    as (out & s1 & s2 & _ & _ & Hm & Hdo & Hout & Hcalls & _ & Hexit).
  injection Hm as <-.
  exists s2. split; [exact Hdo|]. split; [exact Hout|]. split; [exact Hcalls|].
  exact Hexit.
Defined.

Lemma C1_absent_name_panics_witness :
  holds_keys (keyfile_path (start "C" "" FindImpl)) [keyA; keyB; keyA'] ∧
  findAccounts (start "C" "" FindImpl) = FindImpl ∧
  (name (start "C" "" FindImpl) ≠ "") ∧
  (name (start "C" "" FindImpl) ∉ AccountKey.Name <$> [keyA; keyB; keyA']) ∧
  ∃ s1 s2,
    call_findAccounts "C" (start "C" "" FindImpl) = (Ret (Map {[ "C" := None ]}), s1) ∧
    accountsDo offline [] (start "C" "" FindImpl) = (Panic nil_deref, s2) ∧
    stdout s2 = [] ∧
    exit_status (accountsDo offline [] (start "C" "" FindImpl)).1 = 2%Z.
Proof.
  assert (holds_keys (keyfile_path (start "C" "" FindImpl)) [keyA; keyB; keyA']) as Hk.
  { exists "[A, B, A]". split; reflexivity. }
  assert (name (start "C" "" FindImpl) ≠ "") as Hne by discriminate.
  assert (name (start "C" "" FindImpl) ∉ AccountKey.Name <$> [keyA; keyB; keyA'])
    as Habs.
  { cbn. intros H. repeat (apply elem_of_cons in H as [H|H]; [discriminate|]).
    by apply elem_of_nil in H. }
  split; [exact Hk|]. split; [reflexivity|]. split; [exact Hne|]. split; [exact Habs|].
  destruct (C1_absent_name_panics offline [] _ _ Hk eq_refl Hne Habs)
    as (s1 & msg & s2 & Hsel & Hdo & Hmsg & Hout & Hexit).
  rewrite (Hmsg INil (Some (New "connection refused")) 1 eq_refl) in Hdo.
  exists s1, s2. split; [exact Hsel|]. split; [exact Hdo|]. split; [exact Hout|].
  exact Hexit.
Defined.

(** ** The further properties on the concrete runs *)

Example run_flaky :
  (accountsDo Demo2.flaky [count_entries] (start "" "" FindImpl)).1
    = Panic "connection reset" ∧
  calls (accountsDo Demo2.flaky [count_entries] (start "" "" FindImpl)).2 = [].
Proof. split; vm_compute; reflexivity. Qed.

Lemma registry_accounts_from_records_witness :
  holds_keys (keyfile_path (start "" "" FindImpl)) [keyA; keyB; keyA'] ∧
  ∃ s' reg,
    initAccounts (start "" "" FindImpl) = (Ret tt, s') ∧ accounts s' = Map reg ∧
    ∀ n a, reg !! n = Some (Some a) →
      ∃ key, key ∈ [keyA; keyB; keyA'] ∧ AccountKey.Name key = n ∧
        Account.Name a = n ∧
        binance.APIKey (Account.Client a) = AccountKey.APIKey key ∧
        binance.SecretKey (Account.Client a) = AccountKey.SecretKey key ∧
        binance.Debug (Account.Client a) = false.
Proof.
  assert (holds_keys (keyfile_path (start "" "" FindImpl)) [keyA; keyB; keyA']) as Hk.
  { exists "[A, B, A]". split; reflexivity. }
  split; [exact Hk|].
  exact (registry_accounts_from_records (start "" "" FindImpl) _ Hk).
Defined.

Lemma registry_order_irrelevant_witness :
  holds_keys (Ext:=Demo2.ext) (keyfile_path (Demo2.start "ab.json")) [keyA; keyB] ∧
  holds_keys (Ext:=Demo2.ext) (keyfile_path (Demo2.start "ba.json")) [keyB; keyA] ∧
  debug (Demo2.start "ab.json") = debug (Demo2.start "ba.json") ∧
  NoDup (AccountKey.Name <$> [keyA; keyB]) ∧
  [keyA; keyB] ≡ₚ [keyB; keyA] ∧
  (initAccounts (Demo2.start "ab.json")).1 = Ret tt ∧
  (initAccounts (Demo2.start "ba.json")).1 = Ret tt ∧
  accounts (initAccounts (Demo2.start "ab.json")).2 =
  accounts (initAccounts (Demo2.start "ba.json")).2.
Proof.
  assert (holds_keys (Ext:=Demo2.ext) (keyfile_path (Demo2.start "ab.json"))
                     [keyA; keyB]) as Hk.
  { exists "[A, B]". split; reflexivity. }
  assert (holds_keys (Ext:=Demo2.ext) (keyfile_path (Demo2.start "ba.json"))
                     [keyB; keyA]) as Hk'.
  { exists "[B, A]". split; reflexivity. }
  assert (NoDup (AccountKey.Name <$> [keyA; keyB])) as Hnd.
  { cbn. apply NoDup_cons. split; [|apply NoDup_singleton].
    intros H%list_elem_of_singleton. discriminate. }
  assert ([keyA; keyB] ≡ₚ [keyB; keyA]) as Hperm by apply perm_swap.
  split; [exact Hk|]. split; [exact Hk'|]. split; [reflexivity|].
  split; [exact Hnd|]. split; [exact Hperm|].
  exact (registry_order_irrelevant (Demo2.start "ab.json") (Demo2.start "ba.json")
           _ _ Hk Hk' eq_refl Hnd Hperm).
Defined.

Lemma initAccounts_twice_witness :
  holds_keys (keyfile_path (start "" "" FindImpl)) [keyA; keyB; keyA'] ∧
  ∃ s1 s2,
    initAccounts (start "" "" FindImpl) = (Ret tt, s1) ∧
    initAccounts s1 = (Ret tt, s2) ∧
    accounts s2 = accounts s1 ∧ keyfile s2 = keyfile s1 ∧
    reads s2 = reads s1 ++ [keyfile s1] ∧
    s2 = set_reads (reads s1 ++ [keyfile s1]) s1.
Proof.
  assert (holds_keys (keyfile_path (start "" "" FindImpl)) [keyA; keyB; keyA']) as Hk.
  { exists "[A, B, A]". split; reflexivity. }
  split; [exact Hk|].
  exact (initAccounts_twice (start "" "" FindImpl) _ Hk).
Defined.

Lemma returns_on_accounts_list_prices : returns_on_accounts list_prices.
Proof.
  intros a w. unfold list_prices. destruct (decide (Account.Name a = "B")); eauto.
Qed.

Lemma runOnce_single_account_witness :
  holds_keys (keyfile_path (start "C" "" FindImpl)) [keyA; keyB; keyA'] ∧
  [keyA; keyB; keyA'] ≠ [] ∧
  returns_on_accounts list_prices ∧
  ∃ key a c s2,
    key ∈ [keyA; keyB; keyA'] ∧ a = newAccount false key ∧
    registry false [keyA; keyB; keyA'] !! Account.Name a = Some (Some a) ∧
    call_account c = Some a ∧
    calls s2 = [c] ∧
    accounts s2 = Map (registry false [keyA; keyB; keyA']) ∧
    findAccounts s2 = FindOnce ∧
    runOnce list_prices [] (start "C" "" FindImpl) =
      finish [] {[ Account.Name a := entry_of c ]} s2.
Proof.
  assert (holds_keys (keyfile_path (start "C" "" FindImpl)) [keyA; keyB; keyA']) as Hk.
  { exists "[A, B, A]". split; reflexivity. }
  assert ([keyA; keyB; keyA'] ≠ []) as Hne by discriminate.
  split; [exact Hk|]. split; [exact Hne|].
  split; [exact returns_on_accounts_list_prices|].
  exact (runOnce_single_account list_prices [] (start "C" "" FindImpl) _
           Hk Hne returns_on_accounts_list_prices).
Defined.

Lemma accountsDo_named_single_witness :
  holds_keys (keyfile_path (start "B" "" FindImpl)) [keyA; keyB; keyA'] ∧
  findAccounts (start "B" "" FindImpl) = FindImpl ∧
  (name (start "B" "" FindImpl) ≠ "") ∧
  (name (start "B" "" FindImpl) ∈ AccountKey.Name <$> [keyA; keyB; keyA']) ∧
  returns_on_accounts list_prices ∧
  ∃ key a c s2,
    key ∈ [keyA; keyB; keyA'] ∧ AccountKey.Name key = "B" ∧
    a = newAccount false key ∧
    registry false [keyA; keyB; keyA'] !! "B" = Some (Some a) ∧
    call_account c = Some a ∧
    calls s2 = [c] ∧
    accounts s2 = Map (registry false [keyA; keyB; keyA']) ∧
    accountsDo list_prices [] (start "B" "" FindImpl) =
      finish [] {[ "B" := entry_of c ]} s2.
Proof.
  assert (holds_keys (keyfile_path (start "B" "" FindImpl)) [keyA; keyB; keyA']) as Hk.
  { exists "[A, B, A]". split; reflexivity. }
  assert (name (start "B" "" FindImpl) ≠ "") as Hne by discriminate.
  assert (name (start "B" "" FindImpl) ∈ AccountKey.Name <$> [keyA; keyB; keyA'])
    as Hin by (right; left).
  split; [exact Hk|]. split; [reflexivity|]. split; [exact Hne|].
  split; [exact Hin|]. split; [exact returns_on_accounts_list_prices|].
  exact (accountsDo_named_single list_prices [] (start "B" "" FindImpl) _
           Hk eq_refl Hne Hin returns_on_accounts_list_prices).
Defined.

Lemma operation_panic_aborts_witness :
  call_findAccounts (name (start "" "" FindImpl)) (start "" "" FindImpl)
    = (Ret everyone, loaded) ∧
  rangeOrder (entries everyone) = [] ++ ("A", Some accountA) :: [("B", Some accountB)] ∧
  (∀ w, ∃ w', Demo2.flaky (Some accountA) w = (Crashes "connection reset", w')) ∧
  ∃ new s2,
    accountsDo Demo2.flaky [count_entries] (start "" "" FindImpl)
      = (Panic "connection reset", s2) ∧
    calls s2 = calls (start "" "" FindImpl) ++ new ∧
    call_account <$> new = [] ∧
    stdout s2 = stdout (start "" "" FindImpl) ∧
    exit_status (accountsDo Demo2.flaky [count_entries] (start "" "" FindImpl)).1 = 2%Z.
Proof.
  assert (call_findAccounts (name (start "" "" FindImpl)) (start "" "" FindImpl)
          = (Ret everyone, loaded)) as Hsel by (vm_compute; reflexivity).
  assert (rangeOrder (entries everyone)
          = [] ++ ("A", Some accountA) :: [("B", Some accountB)]) as Hrange
    by (vm_compute; reflexivity).
  assert (∀ w, ∃ w', Demo2.flaky (Some accountA) w = (Crashes "connection reset", w'))
    as Hcrash by (intros w; by exists w).
  split; [exact Hsel|]. split; [exact Hrange|]. split; [exact Hcrash|].
  refine (operation_panic_aborts Demo2.flaky [count_entries] _ _ _ [] _ _ _ _
            Hsel Hrange _ Hcrash).
  intros k' v Hin. by apply elem_of_nil in Hin.
Defined.

Lemma accountsDo_all_accounts_witness :
  holds_keys (keyfile_path (start "" "" FindImpl)) [keyA; keyB; keyA'] ∧
  findAccounts (start "" "" FindImpl) = FindImpl ∧
  name (start "" "" FindImpl) = "" ∧
  returns_on_accounts list_prices ∧
  ∃ results s2 new,
    fanOut list_prices (start "" "" FindImpl) = (Ret results, s2) ∧
    calls s2 = new ∧ length new = 2 ∧
    dom results = list_to_set ["A"; "B"; "A"].
Proof.
  assert (holds_keys (keyfile_path (start "" "" FindImpl)) [keyA; keyB; keyA']) as Hk.
  { exists "[A, B, A]". split; reflexivity. }
  split; [exact Hk|]. split; [reflexivity|]. split; [reflexivity|].
  split; [exact returns_on_accounts_list_prices|].
  destruct (accountsDo_all_accounts list_prices (start "" "" FindImpl) _
              Hk eq_refl eq_refl returns_on_accounts_list_prices)
    as (results & s2 & new & Hrun & Hcalls & Hlen & Hdom & _).
  exists results, s2, new. split; [exact Hrun|]. split; [exact Hcalls|].
  split; [exact Hlen|]. exact Hdom.
Defined.
